(** * The UDP listener probe of cloudprober (probes/udplistener/udplistener.go)

    A shallow embedding of the listener: the per-target result accumulators,
    the throttled error log, the receive, echo and output loops, and the
    stats keeper.  Go maps are [gmap]s, [metrics.Int] and the other machine
    integers are [Z] with their wrap-around written out, goroutines are
    functions from one loop iteration's inputs to its outcome. *)

From Stdlib Require Import ZArith Lia Ascii String.
From stdpp Require Import gmap strings list fin_maps pretty.

Open Scope Z_scope.

(** ** Machine integers *)

(** Two's complement wrap-around of a [w]-bit signed integer. *)
Definition wrap (w : Z) (x : Z) : Z := (x + 2 ^ (w - 1)) mod 2 ^ w - 2 ^ (w - 1).

Definition int64 (x : Z) : Z := wrap 64 x.
Definition int32 (x : Z) : Z := wrap 32 x.
(** Go's [int] on the 64-bit platforms cloudprober is built for. *)
Definition int (x : Z) : Z := wrap 64 x.

Definition minInt64 : Z := - 2 ^ 63.
Definition maxInt64 : Z := 2 ^ 63 - 1.
Definition in_int64 (x : Z) : Prop := minInt64 <= x <= maxInt64.

(** ** Constants of the package *)

Definition maxMsgSize : Z := 65536.
Definition maxTargets : nat := 1024.
Definition logThrottleThreshold : Z := 10.

(** ** metrics.Int *)

Module Int.
(** Modelled from the spec: the metrics package is not part of the sources
    at hand; a [metrics.Int] is the "monotonically increasing counter" of
    the data model, an int64 cell with increment, add and read. *)
Definition t : Type := Z.
Definition Int64 (i : t) : Z := i.
Definition IncBy (i : t) (delta : Z) : t := int64 (i + delta).
Definition Inc (i : t) : t := IncBy i 1.
Definition Add (i j : t) : t := int64 (i + j).
End Int.

(** ** Data model *)

(** A [net.UDPAddr]; [UDPAddr_String] is the key of the invalid-message map.
    As [net.JoinHostPort] does, a host with a colon in it (an IPv6 address)
    is put in brackets. *)
Record UDPAddr := mkUDPAddr { IP : string; Port : Z }.

Fixpoint has_colon (s : string) : bool :=
  match s with
  | EmptyString => false
  | String c s' => if bool_decide (c = ":"%char) then true else has_colon s'
  end.

Definition UDPAddr_String (a : UDPAddr) : string :=
  (if has_colon (IP a) then "[" +:+ IP a +:+ "]" else IP a) +:+ ":" +:+ pretty (Port a).

(** [endpoint.Endpoint]: the listener only reads the name. *)
Record Endpoint := mkEndpoint { Name : string }.

(** probeRunResult: the per-target accumulator of one window. *)
Record probeRunResult := mkResult {
  target : string;
  total : Int.t;
  success : Int.t;
  ipdUS : Int.t;
  lost : Int.t;
  delayed : Int.t
}.

Definition zeroResult (tgt : string) : probeRunResult :=
  {| target := tgt; total := 0; success := 0; ipdUS := 0; lost := 0; delayed := 0 |}.

Definition with_total (r : probeRunResult) (v : Int.t) : probeRunResult :=
  {| target := target r; total := v; success := success r; ipdUS := ipdUS r;
     lost := lost r; delayed := delayed r |}.
Definition with_success (r : probeRunResult) (v : Int.t) : probeRunResult :=
  {| target := target r; total := total r; success := v; ipdUS := ipdUS r;
     lost := lost r; delayed := delayed r |}.
Definition with_ipdUS (r : probeRunResult) (v : Int.t) : probeRunResult :=
  {| target := target r; total := total r; success := success r; ipdUS := v;
     lost := lost r; delayed := delayed r |}.
Definition with_lost (r : probeRunResult) (v : Int.t) : probeRunResult :=
  {| target := target r; total := total r; success := success r; ipdUS := ipdUS r;
     lost := v; delayed := delayed r |}.
Definition with_delayed (r : probeRunResult) (v : Int.t) : probeRunResult :=
  {| target := target r; total := total r; success := success r; ipdUS := ipdUS r;
     lost := lost r; delayed := v |}.

(** probeErr: error stats and the counter of the throttled log. *)
Record probeErr := mkErr {
  throttleCt : Z;
  invalidMsgErrs : gmap string string;
  missingTargets : gmap string Z
}.

(** ** udpmessage: messages and flow state *)

Record Message := mkMessage { Src : string; Seq : Z; SendTS : Z }.

Record FlowState := mkFlowState { previousSequence : Z; lastReceiveTimestamp : Z }.

(** The outcome of classifying one message ([udpmessage.Results]). *)
Record Results := mkResults {
  Success : bool;
  LostCount : Z;
  Delayed : bool;
  InterPktDelay : Z
}.


(** Modelled from the spec: the specification has the counter's wrap-around
    treated as a fresh baseline and gives no test for it.  The test taken
    here is the one of serial number arithmetic: a sequence number more than
    half the counter's range below the baseline comes from a counter that
    has wrapped around, not from a late packet. *)
Definition seqWrapped (prev seq : Z) : bool := 2 ^ 63 <? prev - seq.

(** Modelled from the spec: [udpmessage.Message.ProcessOneWay] and the
    [FlowStateMap] it updates are not part of the sources at hand.  Following
    the Flow State Tracker of the specification: an unseen source records its
    baseline and succeeds, and so does a source whose counter has wrapped
    around (wrap-around is treated as a fresh baseline); otherwise [delta =
    sequenceNumber - previousSequence], and [delta = 1] is a success carrying
    the inter-packet delay, [delta > 1] loses [delta - 1] packets, both
    advancing the state, while [delta <= 0] is delayed and leaves the state
    alone.  Times are in nanoseconds; sequence numbers range over 0 ..
    [maxSeq]. *)
Definition ProcessOneWay (m : Message) (fsm : gmap string FlowState) (rxTS : Z)
  : gmap string FlowState * Results :=
  let advanced := <[Src m := {| previousSequence := Seq m; lastReceiveTimestamp := rxTS |}]> fsm in
  match fsm !! Src m with
  | None =>
      (advanced, {| Success := true; LostCount := 0; Delayed := false; InterPktDelay := 0 |})
  | Some fs =>
      let delta := Seq m - previousSequence fs in
      if seqWrapped (previousSequence fs) (Seq m) then
        (advanced, {| Success := true; LostCount := 0; Delayed := false; InterPktDelay := 0 |})
      else if delta =? 1 then
        (advanced, {| Success := true; LostCount := 0; Delayed := false;
                      InterPktDelay := rxTS - lastReceiveTimestamp fs |})
      else if 1 <? delta then
        (advanced, {| Success := false; LostCount := delta - 1; Delayed := false;
                      InterPktDelay := 0 |})
      else
        (fsm, {| Success := false; LostCount := 0; Delayed := true; InterPktDelay := 0 |})
  end.

(** ** Log lines *)

(** One constructor per message the listener can log, with the values that
    are formatted into it. *)
Inductive logEntry :=
| InvalidMessagesWarning (m : gmap string string)
| UnknownTargetsWarning (m : gmap string Z)
| TooManyTargetsWarning (got : nat)
| ReceiveErrorDebug
| EchoWriteError (addr : UDPAddr)
| ReplyTruncatedWarning (sent bufLen : Z) (addr : UDPAddr).

(** ** The probe *)

Record Probe := mkProbe {
  name : string;
  echoMode : bool;
  packetsPerProbe : Z;
  targets : list Endpoint;
  fsm : gmap string FlowState;
  errs : probeErr;
  res : gmap string probeRunResult
}.

Definition with_errs (p : Probe) (e : probeErr) : Probe :=
  {| name := name p; echoMode := echoMode p; packetsPerProbe := packetsPerProbe p;
     targets := targets p; fsm := fsm p; errs := e; res := res p |}.

Definition with_flows (p : Probe) (f : gmap string FlowState) (r : gmap string probeRunResult)
  : Probe :=
  {| name := name p; echoMode := echoMode p; packetsPerProbe := packetsPerProbe p;
     targets := targets p; fsm := f; errs := errs p; res := r |}.

Definition with_targets (p : Probe) (ts : list Endpoint) (r : gmap string probeRunResult)
  : Probe :=
  {| name := name p; echoMode := echoMode p; packetsPerProbe := packetsPerProbe p;
     targets := ts; fsm := fsm p; errs := errs p; res := r |}.

(** What [Init] leaves behind once the socket is open. *)
Definition Init (nm : string) (echo : bool) (ppp : Z) : Probe :=
  {| name := nm; echoMode := echo; packetsPerProbe := ppp; targets := [];
     fsm := ∅; errs := {| throttleCt := 0; invalidMsgErrs := ∅; missingTargets := ∅ |};
     res := ∅ |}.

(** initProbeRunResults: the refreshed target list ([updateTargets] asks the
    discovery collaborator, here the argument [ts]) and a fresh, zeroed
    accumulator per target; a later target of the same name overwrites an
    earlier one, as the assignment [p.res[target.Name] = ...] does. *)
Definition initProbeRunResults (p : Probe) (ts : list Endpoint) : Probe * list logEntry :=
  (with_targets p ts
     (foldl (fun m tg => <[Name tg := zeroResult (Name tg)]> m) ∅ ts),
   if echoMode p && bool_decide (maxTargets < length ts)%nat
   then [TooManyTargetsWarning (length ts)] else []).

(** Folding one classification into an accumulator: lines 241-249 of
    processMessage. *)
Definition accumulate (probeRes : probeRunResult) (msgRes : Results) : probeRunResult :=
  let r := with_total probeRes (Int.Inc (total probeRes)) in
  if Success msgRes then
    with_ipdUS (with_success r (Int.Inc (success r)))
               (Int.IncBy (ipdUS r) (Z.quot (InterPktDelay msgRes) 1000))
  else if 0 <? LostCount msgRes then
    with_lost r (Int.IncBy (lost r) (int64 (LostCount msgRes)))
  else if Delayed msgRes then
    with_delayed r (Int.Inc (delayed r))
  else r.

Section Listener.

(** The wire codec ([udpmessage.NewMessage]) belongs to the paired sender:
    decoding yields a message or fails with an error text. *)
Variable NewMessage : list Byte.byte -> Message + string.

(** processMessage processes an incoming message and updates metrics. *)
Definition processMessage (p : Probe) (buf : list Byte.byte) (rxTS : Z) (srcAddr : UDPAddr)
  : Probe :=
  match NewMessage buf with
  | inr err =>
      let pe := errs p in
      with_errs p {| throttleCt := throttleCt pe;
                     invalidMsgErrs := <[UDPAddr_String srcAddr := err]> (invalidMsgErrs pe);
                     missingTargets := missingTargets pe |}
  | inl msg =>
      let src := Src msg in
      match res p !! src with
      | None =>
          let pe := errs p in
          with_errs p {| throttleCt := throttleCt pe;
                         invalidMsgErrs := invalidMsgErrs pe;
                         missingTargets :=
                           <[src := int (default 0 (missingTargets pe !! src) + 1)]>
                             (missingTargets pe) |}
      | Some probeRes =>
          let '(fsm', msgRes) := ProcessOneWay msg (fsm p) rxTS in
          with_flows p fsm' (<[src := accumulate probeRes msgRes]> (res p))
      end
  end.

(** *** The receive loop and the echo loop *)

(** echoMsg is passed between the receive loop and the echo loop. *)
Record echoMsg := mkEchoMsg { addr : UDPAddr; bufLen : Z; buf : list Byte.byte }.

(** The probe together with the echo channel (a buffered channel of
    capacity [maxTargets], made by probeLoop in echo mode), the calls of
    [WriteToUDP] made so far and the log. *)
Record State := mkState {
  probe : Probe;
  echoChan : list echoMsg;
  wire : list (UDPAddr * list Byte.byte);
  logs : list logEntry
}.

(** What one iteration of a loop comes to: the loop goes round again, the
    goroutine returns, or it is parked on a channel operation that cannot
    complete in this state. *)
Inductive outcome :=
| Continue (s : State)
| Return (s : State)
| Blocked.

(** What the receive loop meets in one iteration: cancellation, a failed
    (timed out) read, or [n] bytes from [srcAddr] stamped [rxTS]. *)
Inductive recvEvent :=
| RecvCtxDone
| ReadError
| Datagram (data : list Byte.byte) (srcAddr : UDPAddr) (rxTS : Z).

(** [echoChan <- e]: a send on a buffered channel completes when the
    buffer has room and parks the sender otherwise. *)
Definition chan_send (ch : list echoMsg) (e : echoMsg) : option (list echoMsg) :=
  if bool_decide (length ch < maxTargets)%nat then Some (ch ++ [e]) else None.

(** The body of the for loop of recvLoop. *)
Definition recvLoop_iter (s : State) (ev : recvEvent) : outcome :=
  match ev with
  | RecvCtxDone => Return s
  | ReadError =>
      Continue {| probe := probe s; echoChan := echoChan s; wire := wire s;
                  logs := logs s ++ [ReceiveErrorDebug] |}
  | Datagram data srcAddr rxTS =>
      if echoMode (probe s) then
        let e := {| buf := data; addr := srcAddr; bufLen := 0 |} in
        match chan_send (echoChan s) e with
        | None => Blocked
        | Some ch =>
            Continue {| probe := processMessage (probe s) data rxTS srcAddr;
                        echoChan := ch; wire := wire s; logs := logs s |}
        end
      else
        Continue {| probe := processMessage (probe s) data rxTS srcAddr;
                    echoChan := echoChan s; wire := wire s; logs := logs s |}
  end.

(** What [WriteToUDP] answers: the number of bytes written, the error
    [io.EOF], or any other error. *)
Inductive writeResult :=
| WriteOK (n : Z)
| WriteEOF
| WriteFailed.

Inductive echoEvent :=
| EchoCtxDone
| EchoReceive (w : writeResult).

(** The body of the for loop of echoLoop: take the oldest message off the
    channel and write it back to where it came from. *)
Definition echoLoop_iter (s : State) (ev : echoEvent) : outcome :=
  match ev with
  | EchoCtxDone => Return s
  | EchoReceive w =>
      match echoChan s with
      | [] => Blocked
      | msg :: rest =>
          let written := wire s ++ [(addr msg, buf msg)] in
          match w with
          | WriteEOF =>
              Return {| probe := probe s; echoChan := rest; wire := written; logs := logs s |}
          | WriteFailed =>
              Continue {| probe := probe s; echoChan := rest; wire := written;
                          logs := logs s ++ [EchoWriteError (addr msg)] |}
          | WriteOK n =>
              Continue {| probe := probe s; echoChan := rest; wire := written;
                          logs := if n <? bufLen msg
                                  then logs s ++ [ReplyTruncatedWarning n (bufLen msg) (addr msg)]
                                  else logs s |}
          end
      end
  end.

(** The echo loop run over a series of write results, for as long as it
    goes round. *)
Fixpoint echoLoop_run (s : State) (ws : list writeResult) : outcome :=
  match ws with
  | [] => Continue s
  | w :: ws' =>
      match echoLoop_iter s (EchoReceive w) with
      | Continue s' => echoLoop_run s' ws'
      | o => o
      end
  end.

End Listener.

(** ** The output loop *)

(** logErrs: the throttled flush of the two error maps. *)
Definition logErrs (pe : probeErr) : probeErr * list logEntry :=
  let newVal := int32 (throttleCt pe + 1) in
  if negb (newVal =? int32 logThrottleThreshold) then
    ({| throttleCt := newVal; invalidMsgErrs := invalidMsgErrs pe;
        missingTargets := missingTargets pe |}, [])
  else
    let '(inv, l1) :=
      if (0 <? size (invalidMsgErrs pe))%nat
      then (∅, [InvalidMessagesWarning (invalidMsgErrs pe)])
      else (invalidMsgErrs pe, []) in
    let '(mis, l2) :=
      if (0 <? size (missingTargets pe))%nat
      then (∅, [UnknownTargetsWarning (missingTargets pe)])
      else (missingTargets pe, []) in
    ({| throttleCt := 0; invalidMsgErrs := inv; missingTargets := mis |}, l1 ++ l2).

(** The loop body of outputResults for one accumulator [r]. *)
Definition reconcile (expectedCt : Z) (r : probeRunResult) : probeRunResult :=
  let delta := int64 (expectedCt - Int.Int64 (total r)) in
  if 0 <? delta then with_total r (Int.IncBy (total r) delta) else r.

(** outputResults writes results to the output channel: the snapshots sent
    on [stats], in the order the map is ranged over, then fresh accumulators
    for the refreshed target list [ts].  The stats keeper is taken to drain
    the channel. *)
Definition outputResults (p : Probe) (expectedCt : Z) (ts : list Endpoint)
  : Probe * list probeRunResult * list logEntry :=
  let sent := reconcile expectedCt <$> (snd <$> map_to_list (res p)) in
  let '(p', l) := initProbeRunResults p ts in
  (p', sent, l).

(** The expected number of packets of one tick: [elapsed] is
    [time.Since(lastExport)] and [interval] the probe interval, both in
    nanoseconds as [time.Duration] has them (an int64; [/] truncates). *)
Definition expectedCount (elapsed interval ppp : Z) : Z :=
  let roundAdd := int64 (Z.quot interval 2 - 1) in
  let numIntervals := int64 (Z.quot (int64 (elapsed + roundAdd)) interval) in
  int64 (numIntervals * int64 ppp).

(** One tick of outputLoop. *)
Definition outputLoop_tick (p : Probe) (elapsed interval : Z) (ts : list Endpoint)
  : Probe * list probeRunResult * list logEntry :=
  let expectedCt := expectedCount elapsed interval (packetsPerProbe p) in
  let '(p1, sent, l1) := outputResults p expectedCt ts in
  let '(pe, l2) := logErrs (errs p1) in
  (with_errs p1 pe, sent, l1 ++ l2).

(** ** The stats keeper *)

Module EventMetrics.
(** Modelled from the spec: [metrics.EventMetrics] is not part of the
    sources at hand.  It is a timestamped, labelled list of named metrics,
    here all of them [metrics.Int]; adding a metric under a name already
    present is ignored, adding a label under a key already present
    replaces its value, and [Clone] is a deep copy. *)
Record t := mk {
  Timestamp : Z;
  metrics : list (string * Int.t);
  labels : list (string * string)
}.

Definition NewEventMetrics (ts : Z) : t :=
  {| Timestamp := ts; metrics := []; labels := [] |}.

Fixpoint assoc {V : Type} (l : list (string * V)) (k : string) : option V :=
  match l with
  | [] => None
  | (k', v) :: l' => if decide (k' = k) then Some v else assoc l' k
  end.

Fixpoint assoc_set {V : Type} (l : list (string * V)) (k : string) (v : V)
  : list (string * V) :=
  match l with
  | [] => [(k, v)]
  | (k', v') :: l' =>
      if decide (k' = k) then (k', v) :: l' else (k', v') :: assoc_set l' k v
  end.

Definition Metric (em : t) (k : string) : option Int.t := assoc (metrics em) k.

Definition MetricsKeys (em : t) : list string := fst <$> metrics em.

Definition AddMetric (em : t) (k : string) (v : Int.t) : t :=
  match Metric em k with
  | Some _ => em
  | None => {| Timestamp := Timestamp em; metrics := metrics em ++ [(k, v)];
               labels := labels em |}
  end.

(** [em.Metric(k).Add(v)]: the value under [k] is a pointer, the sum is
    stored in place. *)
Definition AddTo (em : t) (k : string) (v : Int.t) : t :=
  match Metric em k with
  | Some c => {| Timestamp := Timestamp em; metrics := assoc_set (metrics em) k (Int.Add c v);
                 labels := labels em |}
  | None => em
  end.

Definition AddLabel (em : t) (k v : string) : t :=
  {| Timestamp := Timestamp em; metrics := metrics em; labels := assoc_set (labels em) k v |}.

Definition SetTimestamp (em : t) (ts : Z) : t :=
  {| Timestamp := ts; metrics := metrics em; labels := labels em |}.

Definition Clone (em : t) : t := em.
End EventMetrics.

(** Metrics converts probeRunResult into a metrics.EventMetrics object. *)
Definition Metrics (prr : probeRunResult) (now : Z) : EventMetrics.t :=
  EventMetrics.AddMetric
    (EventMetrics.AddMetric
       (EventMetrics.AddMetric
          (EventMetrics.AddMetric
             (EventMetrics.AddMetric (EventMetrics.NewEventMetrics now) "total" (total prr))
             "success" (success prr))
          "ipd_us" (ipdUS prr))
       "lost" (lost prr))
    "delayed" (delayed prr).

(** What the stats keeper holds and what it has handed to [RecordMetrics]. *)
Record keeper := mkKeeper {
  targetMetrics : gmap string EventMetrics.t;
  recorded : list (Endpoint * EventMetrics.t)
}.

(** The body of the loop over [em.MetricsKeys()]: a metric the target does
    not have yet is added, one it has is added to. *)
Definition mergeKey (em acc : EventMetrics.t) (key : string) : EventMetrics.t :=
  match EventMetrics.Metric acc key, EventMetrics.Metric em key with
  | None, Some v => EventMetrics.AddMetric acc key v
  | Some _, Some v => EventMetrics.AddTo acc key v
  | _, None => acc
  end.

(** The [case result := <-resultsChan] branch. *)
Definition statsKeeper_result (k : keeper) (result : probeRunResult) (now : Z) : keeper :=
  let t := target result in
  let em := Metrics result now in
  match targetMetrics k !! t with
  | None => {| targetMetrics := <[t := em]> (targetMetrics k); recorded := recorded k |}
  | Some cur =>
      {| targetMetrics :=
           <[t := foldl (mergeKey em) cur (EventMetrics.MetricsKeys em)]> (targetMetrics k);
         recorded := recorded k |}
  end.

(** The three labels and the timestamp an export tick puts on a target's
    metrics. *)
Definition stamp (ptype nm : string) (ts : Z) (t : Endpoint) (em : EventMetrics.t)
  : EventMetrics.t :=
  EventMetrics.SetTimestamp
    (EventMetrics.AddLabel
       (EventMetrics.AddLabel (EventMetrics.AddLabel em "ptype" ptype) "probe" nm)
       "dst" (Name t))
    ts.

(** The [case ts := <-exportTicker.C] branch, for one target of [p.targets]:
    [em] is a pointer into the map, so the labels and the timestamp stay on
    the stored metrics; what is recorded is the clone. *)
Definition export_target (ptype nm : string) (ts : Z) (k : keeper) (t : Endpoint) : keeper :=
  match targetMetrics k !! Name t with
  | None => k
  | Some em =>
      let em' := stamp ptype nm ts t em in
      {| targetMetrics := <[Name t := em']> (targetMetrics k);
         recorded := recorded k ++ [(t, EventMetrics.Clone em')] |}
  end.

Definition statsKeeper_export (ptype nm : string) (ts : Z) (tgts : list Endpoint) (k : keeper)
  : keeper :=
  foldl (export_target ptype nm ts) k tgts.

Inductive keeperEvent :=
| ResultReceived (result : probeRunResult) (now : Z)
| ExportTick (ts : Z) (tgts : list Endpoint).

(** statsKeeper manages and outputs probe results; [tgts] of an export tick
    is [p.targets] as the keeper finds it. *)
Definition statsKeeper_step (ptype nm : string) (k : keeper) (ev : keeperEvent) : keeper :=
  match ev with
  | ResultReceived result now => statsKeeper_result k result now
  | ExportTick ts tgts => statsKeeper_export ptype nm ts tgts k
  end.

Definition statsKeeper (ptype nm : string) (evs : list keeperEvent) : keeper :=
  foldl (statsKeeper_step ptype nm) {| targetMetrics := ∅; recorded := [] |} evs.

(** ** Interleavings of the receive loop and the output loop

    processMessage, outputResults and the flush of logErrs each run under
    the probe's mutex, and only the output loop touches the throttle
    counter, so a run of the probe is a sequence of these three steps. *)

Inductive probeEvent :=
| Received (data : list Byte.byte) (srcAddr : UDPAddr) (rxTS : Z)
| OutputResults (expectedCt : Z) (ts : list Endpoint)
| LogErrs.

Definition probe_step (NewMessage : list Byte.byte -> Message + string)
    (st : Probe * list logEntry) (ev : probeEvent) : Probe * list logEntry :=
  let '(p, l) := st in
  match ev with
  | Received data srcAddr rxTS => (processMessage NewMessage p data rxTS srcAddr, l)
  | OutputResults expectedCt ts =>
      let '(p', _, l') := outputResults p expectedCt ts in (p', l ++ l')
  | LogErrs => let '(pe, l') := logErrs (errs p) in (with_errs p pe, l ++ l')
  end.

Definition probe_run (NewMessage : list Byte.byte -> Message + string)
    (p : Probe) (evs : list probeEvent) : Probe * list logEntry :=
  foldl (probe_step NewMessage) (p, []) evs.

Definition is_LogErrs (ev : probeEvent) : bool :=
  match ev with LogErrs => true | _ => false end.

(** How many times a run calls logErrs. *)
Definition count_LogErrs (evs : list probeEvent) : Z :=
  Z.of_nat (length (List.filter is_LogErrs evs)).

(** The probe as the receive loop and the output loop drive it: a datagram
    goes through processMessage, a tick of the ticker through the body of
    outputLoop. *)
Inductive listenerEvent :=
| DatagramIn (data : list Byte.byte) (srcAddr : UDPAddr) (rxTS : Z)
| OutputTick (elapsed interval : Z) (ts : list Endpoint).

Definition listener_step (NewMessage : list Byte.byte -> Message + string)
    (st : Probe * list logEntry) (ev : listenerEvent) : Probe * list logEntry :=
  let '(p, l) := st in
  match ev with
  | DatagramIn data srcAddr rxTS => (processMessage NewMessage p data rxTS srcAddr, l)
  | OutputTick elapsed interval ts =>
      let '(p', _, l') := outputLoop_tick p elapsed interval ts in (p', l ++ l')
  end.

Definition listener_run (NewMessage : list Byte.byte -> Message + string)
    (p : Probe) (evs : list listenerEvent) : Probe * list logEntry :=
  foldl (listener_step NewMessage) (p, []) evs.

Definition is_OutputTick (ev : listenerEvent) : bool :=
  match ev with OutputTick _ _ _ => true | DatagramIn _ _ _ => false end.

(** How many ticks a run has. *)
Definition count_ticks (evs : list listenerEvent) : Z :=
  Z.of_nat (length (List.filter is_OutputTick evs)).

(** ** A codec for the examples

    The first byte is the sequence number and the rest names the source; the
    empty buffer does not decode. *)
Definition testCodec (b : list Byte.byte) : Message + string :=
  match b with
  | [] => inr "message too short"
  | s :: rest =>
      inl {| Src := String.string_of_list_byte rest; Seq := Z.of_N (Byte.to_N s); SendTS := 0 |}
  end.

Definition testAddr : UDPAddr := {| IP := "10.0.0.7"; Port := 9313 |}.

(** A probe listening for targets "a" and "b". *)
Definition testProbe (echo : bool) : Probe :=
  (initProbeRunResults (Init "udp_listener" echo 1) [mkEndpoint "a"; mkEndpoint "b"]).1.

(** The same probe once source "a" has been heard up to sequence number 5,
    at time 100. *)
Definition testFlows : gmap string FlowState :=
  {[ "a" := {| previousSequence := 5; lastReceiveTimestamp := 100 |} ]}.

Definition testProbeSeen (echo : bool) : Probe :=
  with_flows (testProbe echo) testFlows (res (testProbe echo)).




(** Datagrams from source "a" with sequence numbers 3, 6 and 9, from the
    unknown source "z", and one that does not decode. *)
Definition dgram_a3 : list Byte.byte := [Byte.x03; Byte.x61].
Definition dgram_a6 : list Byte.byte := [Byte.x06; Byte.x61].
Definition dgram_a9 : list Byte.byte := [Byte.x09; Byte.x61].
Definition dgram_z1 : list Byte.byte := [Byte.x01; Byte.x7a].
Definition dgram_bad : list Byte.byte := [].

(** A state of the listener whose echo channel holds [n] messages. *)
Definition testState (echo : bool) (n : nat) : State :=
  {| probe := testProbeSeen echo;
     echoChan := replicate n {| addr := testAddr; bufLen := 0; buf := dgram_a3 |};
     wire := []; logs := [] |}.

(** ** Runs of the loops *)

(** A datagram as the receive loop passes it to processMessage. *)
Record packet := mkPacket { pkData : list Byte.byte; pkAddr : UDPAddr; pkRxTS : Z }.

(** processMessage over the datagrams of a window, in arrival order. *)
Definition processAll (NewMessage : list Byte.byte -> Message + string)
    (p : Probe) (ds : list packet) : Probe :=
  foldl (fun q d => processMessage NewMessage q (pkData d) (pkRxTS d) (pkAddr d)) p ds.

(** Whether a datagram decodes to a message of source [src], and how many
    of a list do. *)
Definition decodes_from (NewMessage : list Byte.byte -> Message + string)
    (src : string) (d : packet) : bool :=
  match NewMessage (pkData d) with
  | inl msg => bool_decide (Src msg = src)
  | inr _ => false
  end.

Definition count_from (NewMessage : list Byte.byte -> Message + string)
    (src : string) (ds : list packet) : Z :=
  Z.of_nat (length (List.filter (decodes_from NewMessage src) ds)).

(** The accumulator map agrees with the target list: its keys are the names
    of the targets, every accumulator carries its own key as target, and
    there are no more accumulators than targets. *)
Definition res_wf (p : Probe) : Prop :=
  (forall nm, is_Some (res p !! nm) <-> nm ∈ Name <$> targets p) /\
  (forall nm r, res p !! nm = Some r -> target r = nm) /\
  (size (res p) <= length (targets p))%nat.

(** The receive loop run over the events it meets, for as long as it goes
    round. *)
Fixpoint recvLoop_run (NewMessage : list Byte.byte -> Message + string)
    (s : State) (evs : list recvEvent) : outcome :=
  match evs with
  | [] => Continue s
  | ev :: evs' =>
      match recvLoop_iter NewMessage s ev with
      | Continue s' => recvLoop_run NewMessage s' evs'
      | o => o
      end
  end.

(** The receive loop and the echo loop side by side: each event is one
    iteration of one of them; an iteration that is parked leaves the state as
    it is.  (Iterations attempted after a loop has returned are kept, which
    only adds runs.) *)
Inductive sysEvent :=
| RecvStep (ev : recvEvent)
| EchoStep (ev : echoEvent).

Definition sys_step (NewMessage : list Byte.byte -> Message + string)
    (s : State) (e : sysEvent) : State :=
  match (match e with
         | RecvStep ev => recvLoop_iter NewMessage s ev
         | EchoStep ev => echoLoop_iter s ev
         end) with
  | Continue s' => s'
  | Return s' => s'
  | Blocked => s
  end.

Definition sys_run (NewMessage : list Byte.byte -> Message + string)
    (s : State) (es : list sysEvent) : State :=
  foldl (sys_step NewMessage) s es.

(** The datagrams read in a run, as (sender, bytes). *)
Definition datagrams_of (es : list sysEvent) : list (UDPAddr * list Byte.byte) :=
  omap (fun e => match e with
                 | RecvStep (Datagram data srcAddr _) => Some (srcAddr, data)
                 | _ => None
                 end) es.

Definition queued (s : State) : list (UDPAddr * list Byte.byte) :=
  (fun m => (addr m, buf m)) <$> echoChan s.

Definition is_ReplyTruncated (l : logEntry) : bool :=
  match l with ReplyTruncatedWarning _ _ _ => true | _ => false end.

Definition nonneg_writes (es : list sysEvent) : Prop :=
  forall n, EchoStep (EchoReceive (WriteOK n)) ∈ es -> 0 <= n.

(** ** What the stats keeper has been sent *)

Definition sumZ (l : list Z) : Z := foldr Z.add 0 l.

(** The snapshots of target [t] among the events, oldest first. *)
Definition snapshots_of (t : string) (evs : list keeperEvent) : list probeRunResult :=
  omap (fun ev => match ev with
                  | ResultReceived r _ => if decide (target r = t) then Some r else None
                  | ExportTick _ _ => None
                  end) evs.

(** The counter the keeper holds for target [t] under [key]. *)
Definition keeper_counter (k : keeper) (t key : string) : option Int.t :=
  targetMetrics k !! t ≫= fun em => EventMetrics.Metric em key.

(** ** The period of the output ticker *)

Definition uint64 (x : Z) : Z := x mod 2 ^ 64.

(** [time.Duration.Round] of the Go standard library: [d] rounded to the
    nearest multiple of [m], halfway values away from zero, saturating on
    overflow; [d] itself when [m <= 0]. *)
Definition lessThanHalf (x y : Z) : bool := uint64 (uint64 x + uint64 x) <? uint64 y.

Definition Duration_Round (d m : Z) : Z :=
  if m <=? 0 then d
  else
    let r := Z.rem d m in
    if d <? 0 then
      let r := int64 (- r) in
      if lessThanHalf r m then int64 (d + r)
      else
        let d1 := int64 (int64 (d - m) + r) in
        if d1 <? d then d1 else minInt64
    else if lessThanHalf r m then int64 (d - r)
    else
      let d1 := int64 (int64 (d + m) - r) in
      if d <? d1 then d1 else maxInt64.

(** The head of outputLoop: the ticker runs at the probe interval, or, when
    more than one packet is due per export interval, at half the export
    interval rounded to a multiple of the probe interval.  (A zero interval
    is a division by zero in Go; the period is only meant for [interval]
    other than zero.) *)
Definition tickPeriod (statsExportInterval interval : Z) : Z :=
  let pktsPerExportInterval := int64 (Z.quot statsExportInterval interval) in
  if 1 <? pktsPerExportInterval
  then Duration_Round (int64 (Z.quot statsExportInterval 2)) interval
  else interval.

(** Start sizes the results channel: at least ten, and at least one slot
    per target. *)
Definition resultsChLen (tgts : list Endpoint) : nat :=
  let minResultsChLen := 10%nat in
  if (length tgts <? minResultsChLen)%nat then minResultsChLen else length tgts.

(** Five datagrams of a window: two of target "a", two of the unknown
    source "z", one that does not decode. *)
Definition testPackets : list packet :=
  [mkPacket dgram_a3 testAddr 10; mkPacket dgram_z1 testAddr 20;
   mkPacket dgram_bad testAddr 30; mkPacket dgram_a6 testAddr 40;
   mkPacket dgram_z1 testAddr 50].

(** A stretch of the two loops: two datagrams read, one read timing out,
    three attempts of the echo loop. *)
Definition testSysEvents : list sysEvent :=
  [RecvStep (Datagram dgram_a6 testAddr 250); EchoStep (EchoReceive (WriteOK 2));
   RecvStep ReadError; RecvStep (Datagram dgram_bad testAddr 260);
   EchoStep (EchoReceive WriteFailed); EchoStep (EchoReceive (WriteOK 0))].

(** The five metrics of a snapshot, by name. *)
Definition counters : list (string * (probeRunResult -> Int.t)) :=
  [("total", total); ("success", success); ("ipd_us", ipdUS);
   ("lost", lost); ("delayed", delayed)].

(** What the stats keeper meets in the examples: two snapshots of "a", one
    of "b", an export tick in between. *)
Definition testKeeperEvents : list keeperEvent :=
  [ResultReceived {| target := "a"; total := 5; success := 4; ipdUS := 700;
                     lost := 0; delayed := 1 |} 10;
   ResultReceived {| target := "b"; total := 5; success := 5; ipdUS := 900;
                     lost := 0; delayed := 0 |} 11;
   ExportTick 100 [mkEndpoint "a"; mkEndpoint "b"];
   ResultReceived {| target := "a"; total := 6; success := 3; ipdUS := 400;
                     lost := 3; delayed := 0 |} 110].

(** The error texts of the datagrams of a list that fail to decode and
    whose sender address prints as [key], oldest first. *)
Definition errors_of (NewMessage : list Byte.byte -> Message + string)
    (key : string) (ds : list packet) : list string :=
  omap (fun d => match NewMessage (pkData d) with
                 | inr err => if decide (UDPAddr_String (pkAddr d) = key) then Some err else None
                 | inl _ => None
                 end) ds.

(** * Properties *)

(** ** Machine arithmetic *)

Lemma int64_small x : in_int64 x -> int64 x = x.
Proof.
  unfold in_int64, minInt64, maxInt64, int64, wrap. intros H.
  rewrite Z.mod_small; lia.
Qed.

Lemma int64_add_idemp_r a b : int64 (a + int64 b) = int64 (a + b).
Proof.
  unfold int64, wrap. f_equal.
  replace (a + ((b + 2 ^ (64 - 1)) mod 2 ^ 64 - 2 ^ (64 - 1)) + 2 ^ (64 - 1))
    with (a + (b + 2 ^ (64 - 1)) mod 2 ^ 64) by lia.
  rewrite Zplus_mod_idemp_r. f_equal. lia.
Qed.

Lemma Inc_no_overflow (i : Int.t) : minInt64 <= i < maxInt64 -> Int.Inc i = i + 1.
Proof.
  intros H. unfold Int.Inc, Int.IncBy. apply int64_small.
  unfold in_int64, minInt64, maxInt64 in *. lia.
Qed.

Lemma int32_small x : - 2 ^ 31 <= x < 2 ^ 31 -> int32 x = x.
Proof.
  unfold int32, wrap. intros H. rewrite Z.mod_small; lia.
Qed.

(** ** Classification *)

Lemma ProcessOneWay_cases m f rxTS :
  let r := (ProcessOneWay m f rxTS).2 in
  (Success r = true /\ LostCount r = 0 /\ Delayed r = false) \/
  (Success r = false /\ 0 < LostCount r /\ Delayed r = false /\ InterPktDelay r = 0) \/
  (Success r = false /\ LostCount r = 0 /\ Delayed r = true /\ InterPktDelay r = 0).
Proof.
  unfold ProcessOneWay. destruct (f !! Src m) as [fs|]; simpl.
  - destruct (seqWrapped (previousSequence fs) (Seq m)); simpl; [by left|].
    destruct (Seq m - previousSequence fs =? 1) eqn:E1; simpl; [by left|].
    destruct (1 <? Seq m - previousSequence fs) eqn:E2; simpl.
    + right; left. apply Z.ltb_lt in E2. repeat split; lia.
    + right; right. done.
  - by left.
Qed.


(** ** processMessage *)

Section ProcessMessage.

Variable NewMessage : list Byte.byte -> Message + string.

Lemma accumulate_total probeRes msgRes :
  total (accumulate probeRes msgRes) = Int.Inc (total probeRes) /\
  target (accumulate probeRes msgRes) = target probeRes.
Proof.
  unfold accumulate.
  destruct (Success msgRes), (0 <? LostCount msgRes), (Delayed msgRes); done.
Qed.

Lemma processMessage_known p data rxTS srcAddr msg probeRes :
  NewMessage data = inl msg -> res p !! Src msg = Some probeRes ->
  processMessage NewMessage p data rxTS srcAddr =
    with_flows p (ProcessOneWay msg (fsm p) rxTS).1
      (<[Src msg := accumulate probeRes (ProcessOneWay msg (fsm p) rxTS).2]> (res p)).
Proof.
  intros Hd Hr. unfold processMessage. rewrite Hd, Hr.
  by destruct (ProcessOneWay msg (fsm p) rxTS).
Qed.


(** C7: an accepted message (it decodes and its source has an accumulator)
    adds exactly one to that target's total and moves exactly one of
    success, lost and delayed: success by one, together with the
    inter-packet delay in microseconds, when the result is a success; lost
    by lostCount when lostCount > 0; delayed by one when delayed.  The
    three signals exclude one another, and no other target's accumulator
    changes.  The additions are those of metrics.Int (int64). *)
Theorem processMessage_accepted p data rxTS srcAddr msg probeRes :
  NewMessage data = inl msg ->
  res p !! Src msg = Some probeRes ->
  let msgRes := (ProcessOneWay msg (fsm p) rxTS).2 in
  let p' := processMessage NewMessage p data rxTS srcAddr in
  (forall other, other <> Src msg -> res p' !! other = res p !! other) /\
  exists r',
    res p' !! Src msg = Some r' /\
    target r' = target probeRes /\
    total r' = Int.Inc (total probeRes) /\
    ((Success msgRes = true /\ LostCount msgRes = 0 /\ Delayed msgRes = false /\
      success r' = Int.Inc (success probeRes) /\
      ipdUS r' = Int.IncBy (ipdUS probeRes) (Z.quot (InterPktDelay msgRes) 1000) /\
      lost r' = lost probeRes /\ delayed r' = delayed probeRes)
     \/
     (Success msgRes = false /\ 0 < LostCount msgRes /\ Delayed msgRes = false /\
      lost r' = Int.IncBy (lost probeRes) (LostCount msgRes) /\
      success r' = success probeRes /\ ipdUS r' = ipdUS probeRes /\
      delayed r' = delayed probeRes)
     \/
     (Success msgRes = false /\ LostCount msgRes = 0 /\ Delayed msgRes = true /\
      delayed r' = Int.Inc (delayed probeRes) /\
      success r' = success probeRes /\ ipdUS r' = ipdUS probeRes /\
      lost r' = lost probeRes)).
Proof.
  intros Hd Hr msgRes p'. subst p'.
  rewrite (processMessage_known _ _ _ _ _ _ Hd Hr). simpl. split.
  - intros other Hne. by rewrite lookup_insert_ne.
  - exists (accumulate probeRes msgRes). rewrite lookup_insert_eq.
    split; [done|].
    destruct (accumulate_total probeRes msgRes) as [Ht Hn].
    split; [done|]. split; [done|].
    pose proof (ProcessOneWay_cases msg (fsm p) rxTS) as Hc. simpl in Hc.
    fold msgRes in Hc. unfold accumulate.
    destruct Hc as [(Hs & Hl & Hdl) | [(Hs & Hl & Hdl & _) | (Hs & Hl & Hdl & _)]].
    + left. rewrite Hs. done.
    + right; left. rewrite Hs. apply Z.ltb_lt in Hl as Hl'. rewrite Hl'. simpl.
      repeat split; try done. unfold Int.IncBy. apply int64_add_idemp_r.
    + right; right. rewrite Hs, Hl, Hdl. done.
Qed.

Lemma processMessage_unknown p data rxTS srcAddr msg :
  NewMessage data = inl msg -> res p !! Src msg = None ->
  processMessage NewMessage p data rxTS srcAddr =
    with_errs p
      {| throttleCt := throttleCt (errs p);
         invalidMsgErrs := invalidMsgErrs (errs p);
         missingTargets :=
           <[Src msg := int (default 0 (missingTargets (errs p) !! Src msg) + 1)]>
             (missingTargets (errs p)) |}.
Proof. intros Hd Hr. unfold processMessage. by rewrite Hd, Hr. Qed.

Lemma processMessage_invalid p data rxTS srcAddr err :
  NewMessage data = inr err ->
  processMessage NewMessage p data rxTS srcAddr =
    with_errs p
      {| throttleCt := throttleCt (errs p);
         invalidMsgErrs := <[UDPAddr_String srcAddr := err]> (invalidMsgErrs (errs p));
         missingTargets := missingTargets (errs p) |}.
Proof. intros Hd. unfold processMessage. by rewrite Hd. Qed.

(** C8: a message that decodes but whose source has no accumulator in the
    current target map adds one to the unknown-sender count of that source
    and is dropped: the flow state map gains no entry, no accumulator
    changes, nothing else of the probe changes, and the receive loop goes
    round again: the iteration never returns, and it completes, and the
    loop goes on to its next event, as soon as the echo handoff ahead of
    processMessage does (there is none outside echo mode, and it is
    immediate while the echo channel has room). *)
Theorem unknown_sender_dropped p data rxTS srcAddr msg :
  NewMessage data = inl msg ->
  res p !! Src msg = None ->
  let p' := processMessage NewMessage p data rxTS srcAddr in
  missingTargets (errs p') =
    <[Src msg := int (default 0 (missingTargets (errs p) !! Src msg) + 1)]>
      (missingTargets (errs p)) /\
  fsm p' = fsm p /\
  res p' = res p /\
  invalidMsgErrs (errs p') = invalidMsgErrs (errs p) /\
  throttleCt (errs p') = throttleCt (errs p) /\
  targets p' = targets p /\
  forall s, probe s = p ->
    (forall s', recvLoop_iter NewMessage s (Datagram data srcAddr rxTS) <> Return s') /\
    (forall s', recvLoop_iter NewMessage s (Datagram data srcAddr rxTS) = Continue s' ->
                probe s' = p') /\
    (echoMode p = false \/ (length (echoChan s) < maxTargets)%nat ->
     exists s',
       recvLoop_iter NewMessage s (Datagram data srcAddr rxTS) = Continue s' /\
       probe s' = p' /\ logs s' = logs s /\ wire s' = wire s /\
       forall evs,
         recvLoop_run NewMessage s (Datagram data srcAddr rxTS :: evs) =
           recvLoop_run NewMessage s' evs).
Proof.
  intros Hd Hr p'.
  pose proof (processMessage_unknown p data rxTS srcAddr msg Hd Hr) as Hp.
  fold p' in Hp.
  split; [by rewrite Hp|]. split; [by rewrite Hp|]. split; [by rewrite Hp|].
  split; [by rewrite Hp|]. split; [by rewrite Hp|]. split; [by rewrite Hp|].
  intros s Hs. split; [|split].
  - intros s' Hs'. unfold recvLoop_iter in Hs'.
    repeat case_match; by simplify_eq.
  - intros s' Hs'. subst p' p. unfold recvLoop_iter in Hs'.
    repeat case_match; by simplify_eq.
  - intros Hready. subst p' p.
    assert (Hc : exists s',
              recvLoop_iter NewMessage s (Datagram data srcAddr rxTS) = Continue s' /\
              probe s' = processMessage NewMessage (probe s) data rxTS srcAddr /\
              logs s' = logs s /\ wire s' = wire s).
    { unfold recvLoop_iter. destruct (echoMode (probe s)) eqn:Em.
      - destruct Hready as [?|Hroom]; [done|].
        unfold chan_send. rewrite bool_decide_eq_true_2 by done.
        eexists. split; [reflexivity | done].
      - eexists. split; [reflexivity | done]. }
    destruct Hc as (s' & Hs' & H1 & H2 & H3).
    exists s'. split; [exact Hs'|]. split; [exact H1|]. split; [exact H2|].
    split; [exact H3|]. intros evs. cbn [recvLoop_run]. by rewrite Hs'.
Qed.

(** C9: when decoding fails, processMessage (a total function: there is no
    panic to model, the failure is a value) records the error text under
    the sender's address in the invalid-message map and drops the datagram:
    every accumulator, so every total, the flow state map, the
    unknown-sender counts and the throttle counter stay as they were. *)
Theorem decode_failure_dropped p data rxTS srcAddr err :
  NewMessage data = inr err ->
  let p' := processMessage NewMessage p data rxTS srcAddr in
  invalidMsgErrs (errs p') =
    <[UDPAddr_String srcAddr := err]> (invalidMsgErrs (errs p)) /\
  res p' = res p /\
  (forall nm r, res p !! nm = Some r -> exists r', res p' !! nm = Some r' /\ total r' = total r) /\
  fsm p' = fsm p /\
  missingTargets (errs p') = missingTargets (errs p) /\
  throttleCt (errs p') = throttleCt (errs p) /\
  targets p' = targets p.
Proof.
  intros Hd p'. subst p'. rewrite (processMessage_invalid _ _ _ _ _ Hd). simpl.
  repeat split; try done. intros nm r Hr. by exists r.
Qed.

End ProcessMessage.

(** *** The processMessage properties at work on the example probe *)

Example processMessage_in_order :
  res (processMessage testCodec (testProbeSeen false) dgram_a6 250 testAddr) !! "a" =
    Some {| target := "a"; total := 1; success := 1; ipdUS := 0; lost := 0; delayed := 0 |}.
Proof. vm_compute. reflexivity. Qed.

Example processMessage_gap :
  res (processMessage testCodec (testProbeSeen false) dgram_a9 250 testAddr) !! "a" =
    Some {| target := "a"; total := 1; success := 0; ipdUS := 0; lost := 3; delayed := 0 |}.
Proof. vm_compute. reflexivity. Qed.



Lemma processMessage_accepted_witness :
  exists r',
    res (processMessage testCodec (testProbeSeen false) dgram_a9 250 testAddr) !! "a" = Some r' /\
    total r' = 1 /\ lost r' = 3 /\ success r' = 0 /\ delayed r' = 0.
Proof.
  destruct (processMessage_accepted testCodec (testProbeSeen false) dgram_a9 250 testAddr
              {| Src := "a"; Seq := 9; SendTS := 0 |} (zeroResult "a") eq_refl eq_refl)
    as (_ & r' & Hr' & _ & Ht & _).
  exists r'. split; [exact Hr'|].
  vm_compute in Hr'. injection Hr' as <-. vm_compute. done.
Defined.

Lemma unknown_sender_dropped_witness :
  let p' := processMessage testCodec (testProbeSeen false) dgram_z1 250 testAddr in
  missingTargets (errs p') = {[ "z" := 1 ]} /\
  fsm p' = testFlows /\
  res p' = res (testProbeSeen false) /\
  exists s',
    recvLoop_iter testCodec (testState false 0) (Datagram dgram_z1 testAddr 250) = Continue s' /\
    probe s' = p' /\
    recvLoop_run testCodec (testState false 0)
      [Datagram dgram_z1 testAddr 250; Datagram dgram_a6 testAddr 260] =
      recvLoop_run testCodec s' [Datagram dgram_a6 testAddr 260].
Proof.
  intros p'.
  destruct (unknown_sender_dropped testCodec (testProbeSeen false) dgram_z1 250 testAddr
              {| Src := "z"; Seq := 1; SendTS := 0 |} eq_refl eq_refl)
    as (H1 & H2 & H3 & _ & _ & _ & Hloop).
  split; [|split; [exact H2 | split; [exact H3|]]].
  - fold p' in H1. rewrite H1. vm_compute. reflexivity.
  - destruct (Hloop (testState false 0) eq_refl) as (_ & _ & Hcont).
    destruct (Hcont (or_introl eq_refl)) as (s' & Hs' & Hp & _ & _ & Hnext).
    exists s'. split; [exact Hs'|]. split; [exact Hp | apply Hnext].
Defined.

Lemma decode_failure_dropped_witness :
  let p' := processMessage testCodec (testProbeSeen false) dgram_bad 250 testAddr in
  invalidMsgErrs (errs p') = {[ "10.0.0.7:9313" := "message too short" ]} /\
  res p' = res (testProbeSeen false) /\
  fsm p' = testFlows.
Proof.
  intros p'.
  destruct (decode_failure_dropped testCodec (testProbeSeen false) dgram_bad 250 testAddr
              "message too short" eq_refl)
    as (H1 & H2 & _ & H3 & _).
  split; [|split; [exact H2 | exact H3]].
  fold p' in H1. rewrite H1. vm_compute. reflexivity.
Defined.

(** ** The output loop: reconciliation *)

Lemma in_int64_int64 x : in_int64 (int64 x).
Proof.
  unfold in_int64, minInt64, maxInt64, int64, wrap.
  pose proof (Z.mod_pos_bound (x + 2 ^ (64 - 1)) (2 ^ 64) ltac:(lia)). lia.
Qed.

Lemma reconcile_frame E r :
  target (reconcile E r) = target r /\ success (reconcile E r) = success r /\
  ipdUS (reconcile E r) = ipdUS r /\ lost (reconcile E r) = lost r /\
  delayed (reconcile E r) = delayed r.
Proof. unfold reconcile. by destruct (0 <? _). Qed.

Lemma reconcile_total E r :
  in_int64 (total r) -> in_int64 E -> in_int64 (E - total r) ->
  total (reconcile E r) = Z.max (total r) E /\
  (total r < E -> reconcile E r = with_total r E) /\
  (E <= total r -> reconcile E r = r).
Proof.
  intros Ht HE Hd. unfold reconcile, Int.Int64, Int.IncBy.
  rewrite (int64_small _ Hd).
  destruct (0 <? E - total r) eqn:Hlt.
  - apply Z.ltb_lt in Hlt. replace (total r + (E - total r)) with E by lia.
    rewrite (int64_small _ HE). simpl.
    split; [lia|]. split; [done | lia].
  - apply Z.ltb_ge in Hlt.
    split; [lia|]. split; [lia | done].
Qed.

Lemma outputResults_sent p E ts r' :
  r' ∈ (outputResults p E ts).1.2 <->
  exists nm r, res p !! nm = Some r /\ r' = reconcile E r.
Proof.
  unfold outputResults, initProbeRunResults. simpl.
  rewrite list_elem_of_fmap. split.
  - intros (r & -> & Hr). apply list_elem_of_fmap in Hr as ([nm r0] & -> & Hin).
    apply elem_of_map_to_list in Hin. by exists nm, r0.
  - intros (nm & r & Hr & ->). exists r. split; [done|].
    apply list_elem_of_fmap. exists (nm, r). split; [done|].
    by apply elem_of_map_to_list.
Qed.

Lemma outputLoop_tick_sent p elapsed interval ts :
  (outputLoop_tick p elapsed interval ts).1.2 =
  (outputResults p (expectedCount elapsed interval (packetsPerProbe p)) ts).1.2.
Proof.
  unfold outputLoop_tick.
  destruct (outputResults p _ ts) as [[p1 sent] l1]. simpl.
  by destruct (logErrs (errs p1)).
Qed.

(** C2: at a tick with expected count E, the snapshot sent for a target
    whose accumulator holds total = t carries total = max(t, E): forced up to
    exactly E when t < E (nothing else of the accumulator changing), sent as
    it is when t >= E.  One snapshot is sent per accumulator, and a tick of
    the output loop sends those of outputResults at its computed expected
    count.  The counters are int64: the statement is for values of t and E
    whose difference E - t is an int64 as well, as is the case of all
    non-negative counts. *)
Theorem outputResults_total_max p E ts nm r :
  res p !! nm = Some r ->
  in_int64 (total r) -> in_int64 E -> in_int64 (E - total r) ->
  exists r',
    r' ∈ (outputResults p E ts).1.2 /\
    target r' = target r /\
    total r' = Z.max (total r) E /\
    (total r < E -> total r' = E /\ r' = with_total r E) /\
    (E <= total r -> r' = r) /\
    length (outputResults p E ts).1.2 = size (res p) /\
    forall elapsed interval,
      E = expectedCount elapsed interval (packetsPerProbe p) ->
      r' ∈ (outputLoop_tick p elapsed interval ts).1.2.
Proof.
  intros Hr Ht HE Hd. exists (reconcile E r).
  destruct (reconcile_total E r Ht HE Hd) as (Hmax & Hlt & Hge).
  assert (Hin : reconcile E r ∈ (outputResults p E ts).1.2)
    by (apply outputResults_sent; by exists nm, r).
  split; [done|]. split; [apply reconcile_frame|]. split; [done|].
  split; [intros H; split; [lia | by apply Hlt]|]. split; [done|]. split.
  - unfold outputResults, initProbeRunResults. simpl.
    by rewrite !length_fmap, length_map_to_list.
  - intros elapsed interval ->. by rewrite outputLoop_tick_sent.
Qed.

Lemma outputResults_total_max_witness :
  let p := processMessage testCodec
             (processMessage testCodec (testProbe false) dgram_a3 10 testAddr)
             dgram_a6 20 testAddr in
  exists r',
    r' ∈ (outputResults p 5 [mkEndpoint "a"]).1.2 /\
    r' = {| target := "a"; total := 5; success := 1; ipdUS := 0; lost := 2; delayed := 0 |}.
Proof.
  intros p.
  assert (Hr : res p !! "a" =
               Some {| target := "a"; total := 2; success := 1; ipdUS := 0;
                       lost := 2; delayed := 0 |}) by (vm_compute; reflexivity).
  destruct (outputResults_total_max p 5 [mkEndpoint "a"] "a" _ Hr)
    as (r' & Hin & _ & _ & Hlt & _).
  - unfold in_int64, minInt64, maxInt64; simpl; lia.
  - unfold in_int64, minInt64, maxInt64; simpl; lia.
  - unfold in_int64, minInt64, maxInt64; simpl; lia.
  - exists r'. split; [exact Hin|]. apply Hlt. simpl. lia.
Defined.

(** C5: reconciliation changes nothing but total.  Every accumulator is sent
    with its target, success, lost, delayed and inter-packet delay counters
    as observed, whatever the expected count, so also when the observed
    total is below it: lost is not forced to the deficit.  Conversely every
    snapshot sent is an accumulator of the map with these fields untouched. *)
Theorem outputResults_only_total p E ts :
  (forall nm r, res p !! nm = Some r ->
     exists r', r' ∈ (outputResults p E ts).1.2 /\
       r' = with_total r (total r') /\
       target r' = target r /\ success r' = success r /\ ipdUS r' = ipdUS r /\
       lost r' = lost r /\ delayed r' = delayed r) /\
  (forall r', r' ∈ (outputResults p E ts).1.2 ->
     exists nm r, res p !! nm = Some r /\
       r' = with_total r (total r') /\
       target r' = target r /\ success r' = success r /\ ipdUS r' = ipdUS r /\
       lost r' = lost r /\ delayed r' = delayed r).
Proof.
  assert (Hw : forall r, reconcile E r = with_total r (total (reconcile E r))).
  { intros [tg t s i l d]. unfold reconcile. by destruct (0 <? _). }
  split.
  - intros nm r Hr. exists (reconcile E r). split.
    + apply outputResults_sent. by exists nm, r.
    + split; [apply Hw | apply reconcile_frame].
  - intros r' Hin. apply outputResults_sent in Hin as (nm & r & Hr & ->).
    exists nm, r. split; [done|]. split; [apply Hw | apply reconcile_frame].
Qed.

(** The reconciliation example of the specification: a window that ends with
    total = 2 (one success, a gap of two) against an expected count of 5 is
    sent with total = 5 and lost still 2. *)
Example reconcile_total_2_expected_5 :
  reconcile 5 {| target := "a"; total := 2; success := 1; ipdUS := 0; lost := 2; delayed := 0 |}
  = {| target := "a"; total := 5; success := 1; ipdUS := 0; lost := 2; delayed := 0 |}.
Proof. reflexivity. Qed.

(** ** The error throttler *)

Lemma logErrs_below pe :
  0 <= throttleCt pe < 9 ->
  logErrs pe =
    ({| throttleCt := throttleCt pe + 1; invalidMsgErrs := invalidMsgErrs pe;
        missingTargets := missingTargets pe |}, []).
Proof.
  intros H. unfold logErrs, logThrottleThreshold.
  rewrite !int32_small by lia.
  destruct (throttleCt pe + 1 =? 10) eqn:E; [apply Z.eqb_eq in E; lia|]. done.
Qed.

Lemma size_pos_false {V} (m : gmap string V) : (0 <? size m)%nat = false -> m = ∅.
Proof. intros H. apply Nat.ltb_ge in H. apply map_size_empty_iff. lia. Qed.

Lemma size_pos_true {V} (m : gmap string V) : (0 <? size m)%nat = true -> m <> ∅.
Proof. intros H. apply Nat.ltb_lt in H. apply map_size_non_empty_iff. lia. Qed.

Lemma logErrs_flush pe :
  throttleCt pe = 9 ->
  logErrs pe =
    ({| throttleCt := 0; invalidMsgErrs := ∅; missingTargets := ∅ |},
     (if decide (invalidMsgErrs pe = ∅) then []
      else [InvalidMessagesWarning (invalidMsgErrs pe)]) ++
     (if decide (missingTargets pe = ∅) then []
      else [UnknownTargetsWarning (missingTargets pe)])).
Proof.
  intros H. unfold logErrs, logThrottleThreshold. rewrite H. simpl.
  destruct (0 <? size (invalidMsgErrs pe))%nat eqn:E1;
    destruct (0 <? size (missingTargets pe))%nat eqn:E2;
    try (apply size_pos_true in E1); try (apply size_pos_false in E1);
    try (apply size_pos_true in E2); try (apply size_pos_false in E2);
    repeat case_decide; try done; by rewrite ?E1, ?E2.
Qed.

Lemma logErrs_throttleCt pe :
  0 <= throttleCt pe < 10 ->
  throttleCt (logErrs pe).1 = (throttleCt pe + 1) mod 10.
Proof.
  intros H. destruct (decide (throttleCt pe = 9)) as [E|E].
  - rewrite (logErrs_flush _ E), E. done.
  - rewrite logErrs_below by lia. simpl. rewrite Z.mod_small; lia.
Qed.

Section Throttler.

Variable NewMessage : list Byte.byte -> Message + string.

Lemma processMessage_throttleCt p data rxTS srcAddr :
  throttleCt (errs (processMessage NewMessage p data rxTS srcAddr)) = throttleCt (errs p).
Proof.
  unfold processMessage. destruct (NewMessage data) as [msg|err]; [|done].
  destruct (res p !! Src msg); [|done].
  by destruct (ProcessOneWay msg (fsm p) rxTS).
Qed.

Lemma probe_step_throttleCt st ev :
  0 <= throttleCt (errs st.1) < 10 ->
  throttleCt (errs (probe_step NewMessage st ev).1) =
    (throttleCt (errs st.1) + (if is_LogErrs ev then 1 else 0)) mod 10.
Proof.
  destruct st as [p l]. simpl. intros H. destruct ev as [data srcAddr rxTS|E ts|]; simpl.
  - rewrite processMessage_throttleCt, Z.add_0_r, Z.mod_small; lia.
  - rewrite Z.add_0_r, Z.mod_small; lia.
  - pose proof (logErrs_throttleCt (errs p) H) as Hl.
    by destruct (logErrs (errs p)).
Qed.

Lemma probe_run_throttleCt evs st :
  0 <= throttleCt (errs st.1) < 10 ->
  throttleCt (errs (foldl (probe_step NewMessage) st evs).1) =
    (throttleCt (errs st.1) + count_LogErrs evs) mod 10.
Proof.
  revert st. induction evs as [|ev evs IH]; intros st H.
  - unfold count_LogErrs. simpl. rewrite Z.add_0_r, Z.mod_small; lia.
  - simpl foldl. pose proof (probe_step_throttleCt st ev H) as Hs.
    rewrite IH.
    + rewrite Hs, Zplus_mod_idemp_l. f_equal.
      unfold count_LogErrs. simpl. destruct (is_LogErrs ev); simpl length; lia.
    + rewrite Hs. apply Z.mod_pos_bound. lia.
Qed.

Lemma outputLoop_tick_logErrs p elapsed interval ts :
  errs (outputLoop_tick p elapsed interval ts).1.1 = (logErrs (errs p)).1 /\
  (outputLoop_tick p elapsed interval ts).2 =
    (initProbeRunResults p ts).2 ++ (logErrs (errs p)).2.
Proof.
  unfold outputLoop_tick, outputResults, initProbeRunResults. simpl.
  by destruct (logErrs (errs p)).
Qed.

Lemma listener_step_throttleCt st ev :
  0 <= throttleCt (errs st.1) < 10 ->
  throttleCt (errs (listener_step NewMessage st ev).1) =
    (throttleCt (errs st.1) + (if is_OutputTick ev then 1 else 0)) mod 10.
Proof.
  destruct st as [p l]. simpl. intros H. destruct ev as [data srcAddr rxTS|el iv ts]; simpl.
  - rewrite processMessage_throttleCt, Z.add_0_r, Z.mod_small; lia.
  - destruct (outputLoop_tick_logErrs p el iv ts) as [He _].
    destruct (outputLoop_tick p el iv ts) as [[p' sent] l']. simpl in *.
    rewrite He. by apply logErrs_throttleCt.
Qed.

Lemma listener_run_throttleCt evs st :
  0 <= throttleCt (errs st.1) < 10 ->
  throttleCt (errs (foldl (listener_step NewMessage) st evs).1) =
    (throttleCt (errs st.1) + count_ticks evs) mod 10.
Proof.
  revert st. induction evs as [|ev evs IH]; intros st H.
  - unfold count_ticks. simpl. rewrite Z.add_0_r, Z.mod_small; lia.
  - simpl foldl. pose proof (listener_step_throttleCt st ev H) as Hs.
    rewrite IH.
    + rewrite Hs, Zplus_mod_idemp_l. f_equal.
      unfold count_ticks. simpl. destruct (is_OutputTick ev); simpl length; lia.
    + rewrite Hs. apply Z.mod_pos_bound. lia.
Qed.

(** C6, as the code has it: the throttle counter counts the calls of
    logErrs, which the output loop makes once per tick; the error events of
    the receive loop (a decode failure, an unknown sender) only fill the
    two maps and leave the counter alone, as does outputResults.  From a
    counter of zero, after any run of the probe the counter is the number
    of logErrs calls modulo 10.  A call that finds the counter below 9
    increments it and does nothing else; the call that finds it at 9, so
    every tenth, logs one warning for each map that is not empty, holding
    all that was entered since the last flush, leaves both maps empty and
    the counter at zero.  A tick of the output loop makes exactly one such
    call, after outputResults: the error state and the log lines it leaves
    are those of logErrs, and over any run of datagrams and ticks the
    counter is the number of ticks modulo 10. *)
Theorem logErrs_every_tenth_call :
  (forall p data rxTS srcAddr,
     throttleCt (errs (processMessage NewMessage p data rxTS srcAddr)) = throttleCt (errs p)) /\
  (forall p E ts, throttleCt (errs (outputResults p E ts).1.1) = throttleCt (errs p)) /\
  (forall pe, 0 <= throttleCt pe < 9 ->
     logErrs pe =
       ({| throttleCt := throttleCt pe + 1; invalidMsgErrs := invalidMsgErrs pe;
           missingTargets := missingTargets pe |}, [])) /\
  (forall pe, throttleCt pe = 9 ->
     logErrs pe =
       ({| throttleCt := 0; invalidMsgErrs := ∅; missingTargets := ∅ |},
        (if decide (invalidMsgErrs pe = ∅) then []
         else [InvalidMessagesWarning (invalidMsgErrs pe)]) ++
        (if decide (missingTargets pe = ∅) then []
         else [UnknownTargetsWarning (missingTargets pe)]))) /\
  (forall p evs, throttleCt (errs p) = 0 ->
     throttleCt (errs (probe_run NewMessage p evs).1) = count_LogErrs evs mod 10) /\
  (forall p elapsed interval ts,
     errs (outputLoop_tick p elapsed interval ts).1.1 = (logErrs (errs p)).1 /\
     (outputLoop_tick p elapsed interval ts).2 =
       (initProbeRunResults p ts).2 ++ (logErrs (errs p)).2) /\
  (forall p evs, throttleCt (errs p) = 0 ->
     throttleCt (errs (listener_run NewMessage p evs).1) = count_ticks evs mod 10).
Proof.
  split; [apply processMessage_throttleCt|]. split; [done|].
  split; [apply logErrs_below|]. split; [apply logErrs_flush|].
  split; [|split; [apply outputLoop_tick_logErrs|]].
  - intros p evs H0. unfold probe_run. rewrite probe_run_throttleCt; simpl.
    + by rewrite H0.
    + lia.
  - intros p evs H0. unfold listener_run. rewrite listener_run_throttleCt; simpl.
    + by rewrite H0.
    + lia.
Qed.

End Throttler.

(** Two error events and nine ticks, then the tenth tick: only that one
    logs, both kinds of error in one flush. *)
Lemma logErrs_every_tenth_call_witness :
  let tgts := [mkEndpoint "a"; mkEndpoint "b"] in
  let evs := [DatagramIn dgram_bad testAddr 1; DatagramIn dgram_z1 testAddr 2] ++
             replicate 9 (OutputTick 1000000000 1000000000 tgts) in
  let '(p9, l9) := listener_run testCodec (testProbe false) evs in
  throttleCt (errs p9) = 9 /\ l9 = [] /\
  logErrs (errs p9) =
    ({| throttleCt := 0; invalidMsgErrs := ∅; missingTargets := ∅ |},
     [InvalidMessagesWarning {[ "10.0.0.7:9313" := "message too short" ]};
      UnknownTargetsWarning {[ "z" := 1 ]}]) /\
  (outputLoop_tick p9 1000000000 1000000000 tgts).2 =
    [InvalidMessagesWarning {[ "10.0.0.7:9313" := "message too short" ]};
     UnknownTargetsWarning {[ "z" := 1 ]}].
Proof.
  intros tgts evs.
  destruct (logErrs_every_tenth_call testCodec) as (_ & _ & _ & Hflush & _ & Htick & Hrun).
  pose proof (Hrun (testProbe false) evs eq_refl) as H9.
  destruct (listener_run testCodec (testProbe false) evs) as [p9 l9] eqn:Erun.
  simpl in H9. split; [exact H9|].
  split; [vm_compute in Erun; by injection Erun as _ <-|].
  destruct (Htick p9 1000000000 1000000000 tgts) as [_ Hlog].
  rewrite Hlog, (Hflush (errs p9) H9).
  vm_compute in Erun. injection Erun as <- _. vm_compute. split; reflexivity.
Defined.

(** C6 as stated does not hold: a receive-loop error event does not move the
    throttle counter, and ten of them neither log anything nor clear the
    maps. *)
Lemma throttle_ignores_receive_errors :
  let p := testProbe false in
  let p1 := processMessage testCodec p dgram_bad 1 testAddr in
  let '(p10, l10) :=
    probe_run testCodec p (replicate 10 (Received dgram_bad testAddr 1)) in
  throttleCt (errs p1) <> throttleCt (errs p) + 1 /\
  throttleCt (errs p10) = 0 /\
  l10 = [] /\
  invalidMsgErrs (errs p10) = {[ "10.0.0.7:9313" := "message too short" ]}.
Proof. vm_compute. repeat split; done. Qed.

(** ** The receive loop and the echo loop *)

Lemma chan_send_room ch e :
  (length ch < maxTargets)%nat -> chan_send ch e = Some (ch ++ [e]).
Proof. intros H. unfold chan_send. by rewrite bool_decide_eq_true_2. Qed.

Lemma chan_send_full ch e :
  (maxTargets <= length ch)%nat -> chan_send ch e = None.
Proof. intros H. unfold chan_send. rewrite bool_decide_eq_false_2; [done | lia]. Qed.

Lemma echoLoop_run_drains ws : forall s,
  length ws = length (echoChan s) ->
  Forall (fun w => w <> WriteEOF) ws ->
  exists s', echoLoop_run s ws = Continue s' /\
    wire s' = wire s ++ ((fun e => (addr e, buf e)) <$> echoChan s) /\
    echoChan s' = [] /\ probe s' = probe s.
Proof.
  induction ws as [|w ws IH]; intros s Hlen Hok.
  - destruct (echoChan s) eqn:E; [|done]. exists s. simpl.
    by rewrite app_nil_r.
  - destruct (echoChan s) as [|msg rest] eqn:E; [done|].
    apply Forall_cons in Hok as [Hw Hok]. simpl in Hlen.
    simpl echoLoop_run. unfold echoLoop_iter. rewrite E.
    destruct w as [n| |]; [| done |].
    + edestruct IH as (s' & Hrun & Hwire & Hch & Hp); [| exact Hok |].
      2:{ exists s'. split; [exact Hrun|]. rewrite Hwire. simpl.
          rewrite <- app_assoc. done. }
      simpl. lia.
    + edestruct IH as (s' & Hrun & Hwire & Hch & Hp); [| exact Hok |].
      2:{ exists s'. split; [exact Hrun|]. rewrite Hwire. simpl.
          rewrite <- app_assoc. done. }
      simpl. lia.
Qed.

Section Loops.

Variable NewMessage : list Byte.byte -> Message + string.

Lemma recvLoop_iter_room s data srcAddr rxTS :
  echoMode (probe s) = true ->
  (length (echoChan s) < maxTargets)%nat ->
  exists s', recvLoop_iter NewMessage s (Datagram data srcAddr rxTS) = Continue s' /\
    echoChan s' = echoChan s ++ [{| addr := srcAddr; bufLen := 0; buf := data |}] /\
    wire s' = wire s.
Proof.
  intros Hecho Hroom. unfold recvLoop_iter. rewrite Hecho, chan_send_room by done.
  eexists. split; [reflexivity|]. done.
Qed.

(** C1, as the code has it: in echo mode the handoff is a send on a channel
    buffered to maxTargets messages, and that send blocks.  While the
    channel holds fewer messages, the datagram is queued for the echo loop
    and is then decoded, classified and accumulated.  On a full channel the
    receive loop is parked at the handoff: the datagram is neither dropped
    nor processed, and once the echo loop has taken a message off the
    channel the same datagram is queued and processed. *)
Theorem echo_handoff_blocks s data srcAddr rxTS :
  echoMode (probe s) = true ->
  let e := {| addr := srcAddr; bufLen := 0; buf := data |} in
  let ev := Datagram data srcAddr rxTS in
  ((length (echoChan s) < maxTargets)%nat ->
     recvLoop_iter NewMessage s ev =
       Continue {| probe := processMessage NewMessage (probe s) data rxTS srcAddr;
                   echoChan := echoChan s ++ [e]; wire := wire s; logs := logs s |}) /\
  (length (echoChan s) = maxTargets ->
     recvLoop_iter NewMessage s ev = Blocked /\
     forall w s1, echoLoop_iter s (EchoReceive w) = Continue s1 ->
       recvLoop_iter NewMessage s1 ev =
         Continue {| probe := processMessage NewMessage (probe s) data rxTS srcAddr;
                     echoChan := echoChan s1 ++ [e]; wire := wire s1; logs := logs s1 |}).
Proof.
  intros Hecho e ev. split.
  - intros Hroom. unfold recvLoop_iter, ev. rewrite Hecho.
    by rewrite chan_send_room.
  - intros Hfull. split.
    + unfold recvLoop_iter, ev. rewrite Hecho.
      rewrite chan_send_full; [done | lia].
    + intros w s1 Hs1. unfold echoLoop_iter in Hs1.
      destruct (echoChan s) as [|msg rest] eqn:E; [done|].
      assert (Hlen : (length rest < maxTargets)%nat) by (simpl in Hfull; lia).
      assert (Hs : probe s1 = probe s /\ echoChan s1 = rest).
      { destruct w; simplify_eq; done. }
      destruct Hs as [Hp Hc].
      unfold recvLoop_iter, ev. rewrite Hp, Hecho, Hc.
      by rewrite chan_send_room.
Qed.

(** C10: in echo mode every datagram the receive loop gets past the handoff
    with has been queued for the echo loop, bytes and sender address as
    read, before processMessage looks at it and whatever decoding or the
    target lookup will say: the message queued does not depend on the
    codec.  When the channel has room the iteration does get past the
    handoff; and the echo loop, writing the queue out, ends by writing
    these bytes back to the sender's address. *)
Theorem echo_before_decoding s data srcAddr rxTS :
  echoMode (probe s) = true ->
  let e := {| addr := srcAddr; bufLen := 0; buf := data |} in
  let ev := Datagram data srcAddr rxTS in
  (forall s', recvLoop_iter NewMessage s ev = Continue s' ->
     echoChan s' = echoChan s ++ [e] /\
     probe s' = processMessage NewMessage (probe s) data rxTS srcAddr) /\
  ((length (echoChan s) < maxTargets)%nat ->
     exists s', recvLoop_iter NewMessage s ev = Continue s' /\
       echoChan s' = echoChan s ++ [e] /\
       forall ws, length ws = length (echoChan s') ->
         Forall (fun w => w <> WriteEOF) ws ->
         exists s'', echoLoop_run s' ws = Continue s'' /\
           wire s'' = wire s ++ ((fun m => (addr m, buf m)) <$> echoChan s)
                             ++ [(srcAddr, data)] /\
           echoChan s'' = []).
Proof.
  intros Hecho e ev. split.
  - intros s' Hs'. unfold recvLoop_iter, ev in Hs'. rewrite Hecho in Hs'.
    unfold chan_send in Hs'. case_bool_decide; simplify_eq. done.
  - intros Hroom.
    destruct (recvLoop_iter_room s data srcAddr rxTS Hecho Hroom) as [s' [Hs' Hc]].
    exists s'. split; [exact Hs'|]. destruct Hc as (Hc & Hw). split; [exact Hc|].
    intros ws Hlen Hok.
    destruct (echoLoop_run_drains ws s' Hlen Hok) as (s'' & Hrun & Hwire & Hch & _).
    exists s''. split; [exact Hrun|]. split; [|exact Hch].
    rewrite Hwire, Hc, Hw, fmap_app. done.
Qed.

End Loops.

Lemma echo_handoff_blocks_witness :
  let e := {| addr := testAddr; bufLen := 0; buf := dgram_a6 |} in
  let ev := Datagram dgram_a6 testAddr 250 in
  recvLoop_iter testCodec (testState true 3) ev =
    Continue {| probe := processMessage testCodec (testProbeSeen true) dgram_a6 250 testAddr;
                echoChan := echoChan (testState true 3) ++ [e]; wire := []; logs := [] |} /\
  recvLoop_iter testCodec (testState true 1024) ev = Blocked.
Proof.
  intros e ev. split.
  - apply (echo_handoff_blocks testCodec (testState true 3) dgram_a6 testAddr 250 eq_refl).
    unfold maxTargets. simpl. lia.
  - apply (echo_handoff_blocks testCodec (testState true 1024) dgram_a6 testAddr 250 eq_refl).
    reflexivity.
Defined.

(** C1 as stated does not hold: with the echo channel full the iteration
    does not drop the handoff and go on to account for the datagram, it is
    parked at the send. *)
Lemma full_echo_channel_stalls_receive :
  let s := testState true 1024 in
  let ev := Datagram dgram_a6 testAddr 250 in
  length (echoChan s) = maxTargets /\
  recvLoop_iter testCodec s ev = Blocked /\
  recvLoop_iter testCodec s ev <>
    Continue {| probe := processMessage testCodec (probe s) dgram_a6 250 testAddr;
                echoChan := echoChan s; wire := wire s; logs := logs s |}.
Proof.
  intros s ev. split; [reflexivity|].
  assert (H : recvLoop_iter testCodec s ev = Blocked) by reflexivity.
  split; [exact H|]. rewrite H. discriminate.
Qed.

(** A datagram that does not decode, and one from an unknown sender, behind
    two queued messages: both are written back to where they came from. *)
Lemma echo_before_decoding_witness :
  (exists s' s'',
     recvLoop_iter testCodec (testState true 2) (Datagram dgram_bad testAddr 250) = Continue s' /\
     echoLoop_run s' [WriteOK 2; WriteOK 2; WriteOK 0] = Continue s'' /\
     wire s'' = [(testAddr, dgram_a3); (testAddr, dgram_a3); (testAddr, dgram_bad)]) /\
  (exists s' s'',
     recvLoop_iter testCodec (testState true 2) (Datagram dgram_z1 testAddr 250) = Continue s' /\
     echoLoop_run s' [WriteOK 2; WriteOK 2; WriteFailed] = Continue s'' /\
     wire s'' = [(testAddr, dgram_a3); (testAddr, dgram_a3); (testAddr, dgram_z1)]).
Proof.
  assert (Hroom : (length (echoChan (testState true 2)) < maxTargets)%nat)
    by (unfold maxTargets; simpl; lia).
  split.
  - destruct (proj2 (echo_before_decoding testCodec (testState true 2) dgram_bad testAddr 250
                       eq_refl) Hroom) as (s' & Hs' & Hc & Hrun).
    destruct (Hrun [WriteOK 2; WriteOK 2; WriteOK 0]) as (s'' & Hs'' & Hw & _).
    + by rewrite Hc.
    + repeat constructor; discriminate.
    + exists s', s''. split; [exact Hs'|]. split; [exact Hs''|]. exact Hw.
  - destruct (proj2 (echo_before_decoding testCodec (testState true 2) dgram_z1 testAddr 250
                       eq_refl) Hroom) as (s' & Hs' & Hc & Hrun).
    destruct (Hrun [WriteOK 2; WriteOK 2; WriteFailed]) as (s'' & Hs'' & Hw & _).
    + by rewrite Hc.
    + repeat constructor; discriminate.
    + exists s', s''. split; [exact Hs'|]. split; [exact Hs''|]. exact Hw.
Defined.

(** ** The stats keeper *)

Lemma assoc_assoc_set {V} (l : list (string * V)) k v k' :
  EventMetrics.assoc (EventMetrics.assoc_set l k v) k' =
    if decide (k = k') then Some v else EventMetrics.assoc l k'.
Proof.
  induction l as [|[k0 v0] l IH]; simpl.
  - by repeat case_decide.
  - repeat (case_decide; simpl); subst; try done; try congruence;
      rewrite IH; case_decide; congruence.
Qed.

Lemma assoc_snoc {V} (l : list (string * V)) k v k' :
  EventMetrics.assoc (l ++ [(k, v)]) k' =
    match EventMetrics.assoc l k' with
    | Some x => Some x
    | None => if decide (k = k') then Some v else None
    end.
Proof.
  induction l as [|[k0 v0] l IH]; simpl; [done|].
  destruct (decide (k0 = k')); [done | apply IH].
Qed.

Lemma mergeKey_other em acc k k' :
  k <> k' -> EventMetrics.Metric (mergeKey em acc k) k' = EventMetrics.Metric acc k'.
Proof.
  intros Hne. unfold mergeKey.
  destruct (EventMetrics.Metric acc k) as [c|] eqn:Ea;
    destruct (EventMetrics.Metric em k) as [v|] eqn:Ee; try done.
  - unfold EventMetrics.AddTo. rewrite Ea. unfold EventMetrics.Metric. simpl.
    rewrite assoc_assoc_set. by case_decide.
  - unfold EventMetrics.AddMetric. rewrite Ea. unfold EventMetrics.Metric. simpl.
    rewrite assoc_snoc. destruct (EventMetrics.assoc _ k'); [done|]. by case_decide.
Qed.

Lemma mergeKey_same em acc k v :
  EventMetrics.Metric em k = Some v ->
  EventMetrics.Metric (mergeKey em acc k) k =
    Some (match EventMetrics.Metric acc k with Some c => Int.Add c v | None => v end).
Proof.
  intros Ee. unfold mergeKey. rewrite Ee.
  destruct (EventMetrics.Metric acc k) as [c|] eqn:Ea.
  - unfold EventMetrics.AddTo. rewrite Ea. unfold EventMetrics.Metric. simpl.
    rewrite assoc_assoc_set. by case_decide.
  - unfold EventMetrics.AddMetric. rewrite Ea. unfold EventMetrics.Metric in *. simpl.
    rewrite assoc_snoc, Ea. by case_decide.
Qed.

Lemma merge_fold em keys : NoDup keys -> forall acc k v,
  k ∈ keys -> EventMetrics.Metric em k = Some v ->
  EventMetrics.Metric (foldl (mergeKey em) acc keys) k =
    Some (match EventMetrics.Metric acc k with Some c => Int.Add c v | None => v end).
Proof.
  induction 1 as [|k0 keys Hnin Hnd IH]; intros acc k v Hin Hv.
  - by apply elem_of_nil in Hin.
  - simpl. apply elem_of_cons in Hin as [->|Hin].
    + assert (Hkeep : forall ks a, k0 ∉ ks ->
                EventMetrics.Metric (foldl (mergeKey em) a ks) k0 = EventMetrics.Metric a k0).
      { induction ks as [|k1 ks IHks]; intros a Hn; [done|]. simpl.
        rewrite IHks by set_solver. apply mergeKey_other. set_solver. }
      rewrite Hkeep by done. by apply mergeKey_same.
    + rewrite (IH _ _ v Hin Hv). rewrite mergeKey_other; [done|].
      intros ->. done.
Qed.

Lemma Metrics_keys result now :
  EventMetrics.MetricsKeys (Metrics result now) = ["total"; "success"; "ipd_us"; "lost"; "delayed"].
Proof. reflexivity. Qed.

Lemma Metrics_keys_NoDup result now :
  NoDup (EventMetrics.MetricsKeys (Metrics result now)).
Proof.
  rewrite Metrics_keys.
  repeat (apply NoDup_cons; split;
          [rewrite ?elem_of_cons, elem_of_nil; intros H; intuition discriminate|]).
  apply NoDup_nil_2.
Qed.

Lemma assoc_Some_key {V} (l : list (string * V)) k v :
  EventMetrics.assoc l k = Some v -> k ∈ fst <$> l.
Proof.
  induction l as [|[k0 v0] l IH]; simpl; [done|].
  destruct (decide (k0 = k)) as [->|Hne]; intros H.
  - apply elem_of_cons. by left.
  - apply elem_of_cons. right. by apply IH.
Qed.

Lemma statsKeeper_result_adds k result now cur key c v :
  targetMetrics k !! target result = Some cur ->
  EventMetrics.Metric (Metrics result now) key = Some v ->
  EventMetrics.Metric cur key = Some c ->
  exists cur',
    targetMetrics (statsKeeper_result k result now) !! target result = Some cur' /\
    EventMetrics.Metric cur' key = Some (Int.Add c v).
Proof.
  intros Hcur Hv Hc. unfold statsKeeper_result. rewrite Hcur.
  cbn [targetMetrics]. rewrite lookup_insert_eq. eexists; split; [reflexivity|].
  pose proof (assoc_Some_key _ _ _ Hv) as Hin.
  rewrite (merge_fold _ _ (Metrics_keys_NoDup result now) _ _ v Hin Hv), Hc. done.
Qed.

(** What a recorded copy looks like next to the metrics it was taken from. *)
Lemma stamp_spec ptype nm ts t em :
  EventMetrics.metrics (stamp ptype nm ts t em) = EventMetrics.metrics em /\
  EventMetrics.Timestamp (stamp ptype nm ts t em) = ts /\
  EventMetrics.assoc (EventMetrics.labels (stamp ptype nm ts t em)) "ptype" = Some ptype /\
  EventMetrics.assoc (EventMetrics.labels (stamp ptype nm ts t em)) "probe" = Some nm /\
  EventMetrics.assoc (EventMetrics.labels (stamp ptype nm ts t em)) "dst" = Some (Name t).
Proof.
  unfold stamp. simpl. split; [done|]. split; [done|].
  rewrite !assoc_assoc_set. repeat split; repeat case_decide; done.
Qed.

Lemma export_target_keeps ptype nm ts k t n :
  EventMetrics.metrics <$> (targetMetrics (export_target ptype nm ts k t) !! n) =
  EventMetrics.metrics <$> (targetMetrics k !! n).
Proof.
  unfold export_target. destruct (targetMetrics k !! Name t) as [em|] eqn:E; [|done].
  simpl. destruct (decide (Name t = n)) as [<-|Hne].
  - by rewrite lookup_insert_eq, E.
  - by rewrite lookup_insert_ne.
Qed.

Lemma statsKeeper_export_spec ptype nm ts tgts : forall k,
  (forall n,
     EventMetrics.metrics <$> (targetMetrics (statsKeeper_export ptype nm ts tgts k) !! n) =
     EventMetrics.metrics <$> (targetMetrics k !! n)) /\
  exists new,
    recorded (statsKeeper_export ptype nm ts tgts k) = recorded k ++ new /\
    (forall t em, (t, em) ∈ new ->
       t ∈ tgts /\ exists em0,
         targetMetrics k !! Name t = Some em0 /\
         EventMetrics.metrics em = EventMetrics.metrics em0 /\
         EventMetrics.Timestamp em = ts /\
         EventMetrics.assoc (EventMetrics.labels em) "ptype" = Some ptype /\
         EventMetrics.assoc (EventMetrics.labels em) "probe" = Some nm /\
         EventMetrics.assoc (EventMetrics.labels em) "dst" = Some (Name t)) /\
    (forall t, t ∈ tgts -> is_Some (targetMetrics k !! Name t) -> exists em, (t, em) ∈ new).
Proof.
  unfold statsKeeper_export.
  induction tgts as [|t0 tgts IH]; intros k; simpl.
  - split; [done|]. exists []. rewrite app_nil_r. split; [done|].
    split; [intros t em H; by apply elem_of_nil in H|].
    intros t H; by apply elem_of_nil in H.
  - destruct (IH (export_target ptype nm ts k t0)) as (Hkeep & new & Hrec & Hfwd & Hall).
    pose proof (export_target_keeps ptype nm ts k t0) as H0.
    split; [intros n; by rewrite Hkeep, H0|].
    assert (Hback : forall t em1,
              targetMetrics (export_target ptype nm ts k t0) !! Name t = Some em1 ->
              exists em0, targetMetrics k !! Name t = Some em0 /\
                          EventMetrics.metrics em1 = EventMetrics.metrics em0).
    { intros t em1 H1. specialize (H0 (Name t)). rewrite H1 in H0.
      destruct (targetMetrics k !! Name t) as [em0|]; [|done].
      exists em0. split; [done|]. by injection H0. }
    assert (Hfwd' : forall t em, (t, em) ∈ new ->
              t ∈ t0 :: tgts /\ exists em0,
                targetMetrics k !! Name t = Some em0 /\
                EventMetrics.metrics em = EventMetrics.metrics em0 /\
                EventMetrics.Timestamp em = ts /\
                EventMetrics.assoc (EventMetrics.labels em) "ptype" = Some ptype /\
                EventMetrics.assoc (EventMetrics.labels em) "probe" = Some nm /\
                EventMetrics.assoc (EventMetrics.labels em) "dst" = Some (Name t)).
    { intros t em Hin. destruct (Hfwd t em Hin) as (Ht & em1 & H1 & Hm & Hrest).
      split; [apply elem_of_cons; by right|].
      destruct (Hback t em1 H1) as (em0 & H2 & Hm0).
      exists em0. split; [done|]. split; [congruence | done]. }
    assert (Hall' : forall t, t ∈ tgts -> is_Some (targetMetrics k !! Name t) ->
              exists em, (t, em) ∈ new).
    { intros t Ht [em0 H1]. apply Hall; [done|].
      specialize (H0 (Name t)). rewrite H1 in H0.
      destruct (targetMetrics (export_target ptype nm ts k t0) !! Name t); [by eexists | done]. }
    unfold export_target in Hrec |- *.
    destruct (targetMetrics k !! Name t0) as [em0|] eqn:E0.
    + exists ((t0, EventMetrics.Clone (stamp ptype nm ts t0 em0)) :: new).
      simpl in Hrec. rewrite Hrec, <- app_assoc. split; [done|]. split.
      * intros t em Hin. apply elem_of_cons in Hin as [Heq|Hin]; [|by apply Hfwd'].
        injection Heq as -> ->. split; [apply elem_of_cons; by left|].
        exists em0. split; [done|]. apply stamp_spec.
      * intros t Ht Hsome. apply elem_of_cons in Ht as [->|Ht].
        -- eexists. apply elem_of_cons. by left.
        -- destruct (Hall' t Ht Hsome) as [em Hin]. exists em. apply elem_of_cons. by right.
    + exists new. split; [done|]. split; [done|].
      intros t Ht Hsome. apply elem_of_cons in Ht as [->|Ht]; [|by apply Hall'].
      rewrite E0 in Hsome. by destruct Hsome.
Qed.

(** C3, as the code has it: on an export tick the stats keeper passes on
    (to RecordMetrics), for each target of the current list that has
    accumulated data, a deep copy of the merged metrics carrying the labels ptype, probe
    and dst and the tick's timestamp, and for no other target.  It does not
    clear the accumulation: every target's merged counters are after the
    tick what they were before it, so the next snapshot of a target is added
    onto them and the following export carries running totals, which include
    what was forwarded before. *)
Theorem export_keeps_accumulation ptype nm ts tgts k :
  let k' := statsKeeper_export ptype nm ts tgts k in
  (forall n,
     EventMetrics.metrics <$> (targetMetrics k' !! n) =
     EventMetrics.metrics <$> (targetMetrics k !! n)) /\
  (exists new,
     recorded k' = recorded k ++ new /\
     (forall t em, (t, em) ∈ new ->
        t ∈ tgts /\ exists em0,
          targetMetrics k !! Name t = Some em0 /\
          EventMetrics.metrics em = EventMetrics.metrics em0 /\
          EventMetrics.Timestamp em = ts /\
          EventMetrics.assoc (EventMetrics.labels em) "ptype" = Some ptype /\
          EventMetrics.assoc (EventMetrics.labels em) "probe" = Some nm /\
          EventMetrics.assoc (EventMetrics.labels em) "dst" = Some (Name t)) /\
     (forall t, t ∈ tgts -> is_Some (targetMetrics k !! Name t) ->
        exists em, (t, em) ∈ new)) /\
  (forall result now cur key c v,
     targetMetrics k !! target result = Some cur ->
     EventMetrics.Metric cur key = Some c ->
     EventMetrics.Metric (Metrics result now) key = Some v ->
     exists cur',
       targetMetrics (statsKeeper_result k' result now) !! target result = Some cur' /\
       EventMetrics.Metric cur' key = Some (Int.Add c v)).
Proof.
  intros k'. destruct (statsKeeper_export_spec ptype nm ts tgts k) as [Hkeep Hnew].
  fold k' in Hkeep, Hnew. split; [exact Hkeep|]. split; [exact Hnew|].
  intros result now cur key c v Hcur Hc Hv.
  specialize (Hkeep (target result)). rewrite Hcur in Hkeep.
  destruct (targetMetrics k' !! target result) as [cur1|] eqn:E1; [|done].
  injection Hkeep as Hm.
  apply (statsKeeper_result_adds k' result now cur1 key c v E1 Hv).
  unfold EventMetrics.Metric in *. by rewrite Hm.
Qed.

Lemma export_keeps_accumulation_witness :
  let a := mkEndpoint "a" in
  let r5 := {| target := "a"; total := 5; success := 4; ipdUS := 0; lost := 0; delayed := 1 |} in
  let r3 := {| target := "a"; total := 3; success := 3; ipdUS := 0; lost := 0; delayed := 0 |} in
  let k := statsKeeper "udp" "listener" [ResultReceived r5 10] in
  let k' := statsKeeper_export "udp" "listener" 100 [a] k in
  exists cur',
    targetMetrics (statsKeeper_result k' r3 110) !! "a" = Some cur' /\
    EventMetrics.Metric cur' "total" = Some 8.
Proof.
  intros a r5 r3 k k'.
  destruct (export_keeps_accumulation "udp" "listener" 100 [a] k) as (_ & _ & Hadd).
  exact (Hadd r3 110 (Metrics r5 10) "total" 5 3 eq_refl eq_refl eq_refl).
Defined.

(** C3 as stated does not hold: after an export tick the target's
    accumulation is still there, and the next export forwards it again,
    5 and then 5 + 3, not 5 and then 3. *)
Lemma export_tick_does_not_clear :
  let a := mkEndpoint "a" in
  let r5 := {| target := "a"; total := 5; success := 4; ipdUS := 0; lost := 0; delayed := 1 |} in
  let r3 := {| target := "a"; total := 3; success := 3; ipdUS := 0; lost := 0; delayed := 0 |} in
  let k1 := statsKeeper "udp" "listener" [ResultReceived r5 10; ExportTick 100 [a]] in
  let k2 := statsKeeper "udp" "listener"
              [ResultReceived r5 10; ExportTick 100 [a];
               ResultReceived r3 110; ExportTick 200 [a]] in
  EventMetrics.metrics <$> (targetMetrics k1 !! "a") =
    Some [("total", 5); ("success", 4); ("ipd_us", 0); ("lost", 0); ("delayed", 1)] /\
  (fun te => EventMetrics.Metric te.2 "total") <$> recorded k2 = [Some 5; Some 8] /\
  (fun te => EventMetrics.Metric te.2 "total") <$> recorded k2 <> [Some 5; Some 3].
Proof. vm_compute. repeat split; done. Qed.

(** * Further properties of the listener *)

(** ** Fresh accumulators and the shape of the accumulator map *)

Lemma init_fold_lookup ts : forall (m : gmap string probeRunResult) nm,
  foldl (fun m tg => <[Name tg := zeroResult (Name tg)]> m) m ts !! nm =
    if decide (nm ∈ Name <$> ts) then Some (zeroResult nm) else m !! nm.
Proof.
  induction ts as [|t0 ts IH]; intros m nm.
  - rewrite decide_False; [done|]. rewrite fmap_nil. apply not_elem_of_nil.
  - rewrite fmap_cons. cbn [foldl]. rewrite IH.
    destruct (decide (nm ∈ Name <$> ts)) as [Hin|Hnin].
    + rewrite decide_True; [done | apply elem_of_cons; by right].
    + destruct (decide (nm = Name t0)) as [->|Hne].
      * rewrite lookup_insert_eq, decide_True; [done | apply elem_of_cons; by left].
      * rewrite lookup_insert_ne by done. rewrite decide_False; [done|].
        rewrite elem_of_cons. intros [?|?]; done.
Qed.

Lemma init_fold_size ts : forall (m : gmap string probeRunResult),
  (size (foldl (fun m tg => <[Name tg := zeroResult (Name tg)]> m) m ts)
   <= size m + length ts)%nat.
Proof.
  induction ts as [|t0 ts IH]; intros m; simpl; [lia|].
  etrans; [apply IH|]. destruct (m !! Name t0) eqn:E.
  - rewrite map_size_insert_Some by (by eexists). lia.
  - rewrite map_size_insert_None by done. lia.
Qed.

Lemma res_wf_init p ts : res_wf (initProbeRunResults p ts).1.
Proof.
  unfold res_wf, initProbeRunResults. simpl. split; [|split].
  - intros nm. rewrite init_fold_lookup. case_decide as H.
    + split; [done | by eexists].
    + rewrite lookup_empty. split; [by intros [? ?] | done].
  - intros nm r. rewrite init_fold_lookup. case_decide; [|by rewrite lookup_empty].
    by intros [= <-].
  - etrans; [apply init_fold_size|]. rewrite map_size_empty. lia.
Qed.

Lemma res_wf_processMessage NewMessage p data rxTS srcAddr :
  res_wf p -> res_wf (processMessage NewMessage p data rxTS srcAddr).
Proof.
  intros (Hk & Hl & Hs). unfold processMessage.
  destruct (NewMessage data) as [msg|err]; [|done].
  destruct (res p !! Src msg) as [probeRes|] eqn:E; [|done].
  destruct (ProcessOneWay msg (fsm p) rxTS) as [f' msgRes].
  unfold res_wf. simpl. split; [|split].
  - intros nm. rewrite <- Hk. destruct (decide (Src msg = nm)) as [<-|Hne].
    + rewrite lookup_insert_eq, E. split; by eexists.
    + by rewrite lookup_insert_ne.
  - intros nm r. destruct (decide (Src msg = nm)) as [<-|Hne].
    + rewrite lookup_insert_eq. intros [= <-].
      destruct (accumulate_total probeRes msgRes) as [_ ->]. by apply Hl.
    + rewrite lookup_insert_ne by done. apply Hl.
  - rewrite map_size_insert_Some; [done | by eexists].
Qed.

Lemma res_wf_probe_step NewMessage st ev :
  res_wf st.1 -> res_wf (probe_step NewMessage st ev).1.
Proof.
  destruct st as [p l]. simpl. intros H.
  destruct ev as [data srcAddr rxTS|E ts|]; simpl.
  - by apply res_wf_processMessage.
  - apply (res_wf_init p ts).
  - by destruct (logErrs (errs p)).
Qed.

Lemma res_wf_foldl NewMessage evs : forall st,
  res_wf st.1 -> res_wf (foldl (probe_step NewMessage) st evs).1.
Proof.
  induction evs as [|ev evs IH]; intros st H; [done|].
  simpl. apply IH. by apply res_wf_probe_step.
Qed.

(** initProbeRunResults leaves exactly one accumulator per target name of
    the refreshed list, all counters zero and labelled with that name, and
    nothing under any other name; the list becomes the probe's target list,
    and the flow states and the error maps are not touched.  Several
    targets of one name share one accumulator.  The probe outputResults
    leaves behind is this one: no counter survives a tick. *)
Theorem initProbeRunResults_fresh p ts :
  let p' := (initProbeRunResults p ts).1 in
  targets p' = ts /\
  (forall nm, res p' !! nm =
     if decide (nm ∈ Name <$> ts) then Some (zeroResult nm) else None) /\
  fsm p' = fsm p /\ errs p' = errs p /\
  (forall E, (outputResults p E ts).1.1 = p').
Proof.
  simpl. split; [done|]. split; [|done].
  intros nm. rewrite init_fold_lookup. by rewrite lookup_empty.
Qed.

(** From the start of the receive loop on (it begins with
    initProbeRunResults), through any sequence of processed datagrams,
    output ticks with refreshed target lists and error flushes, the keys of
    the accumulator map are exactly the names of the current targets, each
    accumulator is labelled with its key, and there are never more
    accumulators than targets: no datagram adds or removes an accumulator. *)
Theorem accumulators_follow_targets NewMessage p ts evs :
  res_wf (probe_run NewMessage (initProbeRunResults p ts).1 evs).1.
Proof.
  unfold probe_run. apply res_wf_foldl. simpl. apply (res_wf_init p ts).
Qed.

(** ** Counting over a window *)

Lemma int64_add_idemp_l a b : int64 (int64 a + b) = int64 (a + b).
Proof. rewrite (Z.add_comm (int64 a)), int64_add_idemp_r. f_equal. lia. Qed.

Lemma count_from_cons NewMessage src d ds :
  count_from NewMessage src (d :: ds) =
    (if decodes_from NewMessage src d then 1 else 0) + count_from NewMessage src ds.
Proof.
  unfold count_from. simpl. destruct (decodes_from NewMessage src d); simpl length; lia.
Qed.

Lemma count_from_nonneg NewMessage src ds : 0 <= count_from NewMessage src ds.
Proof. unfold count_from. lia. Qed.

Section Counting.

Variable NewMessage : list Byte.byte -> Message + string.

Lemma processMessage_total_step p d t r :
  res p !! t = Some r -> in_int64 (total r) ->
  exists r',
    res (processMessage NewMessage p (pkData d) (pkRxTS d) (pkAddr d)) !! t = Some r' /\
    target r' = target r /\ in_int64 (total r') /\
    total r' = int64 (total r + (if decodes_from NewMessage t d then 1 else 0)).
Proof.
  intros Hr Hin. unfold processMessage, decodes_from.
  destruct (NewMessage (pkData d)) as [msg|err].
  - destruct (res p !! Src msg) as [probeRes|] eqn:E.
    + destruct (ProcessOneWay msg (fsm p) (pkRxTS d)) as [f' msgRes]. simpl.
      destruct (decide (Src msg = t)) as [Heq|Hne].
      * rewrite bool_decide_eq_true_2 by done. subst t.
        rewrite lookup_insert_eq. eexists. split; [done|].
        destruct (accumulate_total probeRes msgRes) as [-> ->].
        assert (probeRes = r) as -> by congruence.
        split; [done|]. split; [apply in_int64_int64 | done].
      * rewrite bool_decide_eq_false_2 by done. rewrite lookup_insert_ne by done.
        exists r. rewrite Z.add_0_r, int64_small by done. done.
    + simpl. rewrite bool_decide_eq_false_2 by congruence.
      exists r. rewrite Z.add_0_r, int64_small by done. done.
  - simpl. exists r. rewrite Z.add_0_r, int64_small by done. done.
Qed.

Lemma processAll_total ds : forall p t r,
  res p !! t = Some r -> in_int64 (total r) ->
  exists r',
    res (processAll NewMessage p ds) !! t = Some r' /\
    target r' = target r /\
    total r' = int64 (total r + count_from NewMessage t ds).
Proof.
  induction ds as [|d ds IH]; intros p t r Hr Hin.
  - exists r. unfold count_from. simpl. rewrite Z.add_0_r, int64_small by done. done.
  - destruct (processMessage_total_step p d t r Hr Hin) as (r1 & H1 & Ht1 & Hin1 & Htot1).
    destruct (IH _ t r1 H1 Hin1) as (r' & H' & Ht' & Htot').
    exists r'. unfold processAll in *. simpl. split; [exact H'|].
    split; [congruence|].
    rewrite Htot', Htot1, int64_add_idemp_l, count_from_cons. f_equal. lia.
Qed.

Lemma processMessage_res_None p data rxTS srcAddr s :
  res p !! s = None -> res (processMessage NewMessage p data rxTS srcAddr) !! s = None.
Proof.
  intros Hs. unfold processMessage. destruct (NewMessage data) as [msg|err]; [|done].
  destruct (res p !! Src msg) as [probeRes|] eqn:E; [|done].
  destruct (ProcessOneWay msg (fsm p) rxTS). simpl.
  rewrite lookup_insert_ne; [done | congruence].
Qed.

Lemma processMessage_missing_step p d s :
  res p !! s = None ->
  missingTargets (errs (processMessage NewMessage p (pkData d) (pkRxTS d) (pkAddr d))) !! s =
    if decodes_from NewMessage s d
    then Some (int (default 0 (missingTargets (errs p) !! s) + 1))
    else missingTargets (errs p) !! s.
Proof.
  intros Hs. unfold processMessage, decodes_from.
  destruct (NewMessage (pkData d)) as [msg|err]; [|done].
  destruct (res p !! Src msg) as [probeRes|] eqn:E.
  - destruct (ProcessOneWay msg (fsm p) (pkRxTS d)). simpl.
    rewrite bool_decide_eq_false_2; [done | congruence].
  - simpl. destruct (decide (Src msg = s)) as [->|Hne].
    + by rewrite bool_decide_eq_true_2, lookup_insert_eq.
    + by rewrite bool_decide_eq_false_2, lookup_insert_ne.
Qed.

Lemma processAll_missing ds : forall p s,
  res p !! s = None ->
  missingTargets (errs (processAll NewMessage p ds)) !! s =
    if decide (count_from NewMessage s ds = 0) then missingTargets (errs p) !! s
    else Some (int (default 0 (missingTargets (errs p) !! s) + count_from NewMessage s ds)).
Proof.
  induction ds as [|d ds IH]; intros p s Hs.
  - rewrite decide_True; done.
  - unfold processAll in *. simpl.
    rewrite IH by (by apply processMessage_res_None).
    rewrite processMessage_missing_step by done. rewrite count_from_cons.
    pose proof (count_from_nonneg NewMessage s ds) as Hn.
    destruct (decodes_from NewMessage s d).
    + simpl default. rewrite (decide_False (P := 1 + _ = 0)) by lia.
      case_decide as H0.
      * by rewrite H0, Z.add_0_r.
      * unfold int. change (wrap 64) with int64.
        by rewrite int64_add_idemp_l, Z.add_assoc.
    + rewrite Z.add_0_l. done.
Qed.

(** Within a window the total of a target counts the datagrams that decode
    to a message of that target: after any sequence of datagrams, whatever
    their senders, order and classification, the target's total has grown by
    exactly their number (as long as the int64 counter does not overflow),
    and the accumulator is still that target's. *)
Theorem total_counts_accepted p ds t r :
  res p !! t = Some r ->
  0 <= total r -> total r + count_from NewMessage t ds <= maxInt64 ->
  exists r',
    res (processAll NewMessage p ds) !! t = Some r' /\
    target r' = target r /\
    total r' = total r + count_from NewMessage t ds.
Proof.
  intros Hr H0 Hmax. pose proof (count_from_nonneg NewMessage t ds) as Hn.
  assert (Hin : in_int64 (total r)) by (unfold in_int64, minInt64, maxInt64 in *; lia).
  destruct (processAll_total ds p t r Hr Hin) as (r' & H' & Ht & Htot).
  exists r'. split; [done|]. split; [done|]. rewrite Htot. apply int64_small.
  unfold in_int64, minInt64, maxInt64 in *. lia.
Qed.

(** A whole window: from fresh accumulators, after the datagrams of the
    window, the snapshot that the next tick sends for a target carries as
    total the larger of the number of datagrams decoded for that target and
    the expected count. *)
Theorem window_total p ts ts' ds E t :
  t ∈ Name <$> ts ->
  0 <= E <= maxInt64 -> count_from NewMessage t ds <= maxInt64 ->
  exists r',
    r' ∈ (outputResults (processAll NewMessage (initProbeRunResults p ts).1 ds) E ts').1.2 /\
    target r' = t /\
    total r' = Z.max (count_from NewMessage t ds) E.
Proof.
  intros Ht HE Hmax. pose proof (count_from_nonneg NewMessage t ds) as Hn.
  assert (H0 : res (initProbeRunResults p ts).1 !! t = Some (zeroResult t)).
  { unfold initProbeRunResults. simpl. rewrite init_fold_lookup. by rewrite decide_True. }
  destruct (processAll_total ds _ t _ H0) as (r1 & H1 & Ht1 & Htot).
  { unfold in_int64, minInt64, maxInt64. simpl. lia. }
  simpl in Htot, Ht1. rewrite Z.add_0_l in Htot. rewrite int64_small in Htot
    by (unfold in_int64, minInt64, maxInt64 in *; lia).
  exists (reconcile E r1). split; [apply outputResults_sent; by exists t, r1|].
  split; [by destruct (reconcile_frame E r1) as [-> _]|].
  rewrite <- Htot. apply reconcile_total;
    unfold in_int64, minInt64, maxInt64 in *; lia.
Qed.

(** Between two flushes the unknown-sender count of a source that is not a
    target is the number of datagrams that decoded to that source: nothing
    is recorded while there are none, and the count neither misses nor
    repeats a datagram. *)
Theorem missingTargets_counts p ds s :
  res p !! s = None ->
  missingTargets (errs p) !! s = None ->
  count_from NewMessage s ds <= maxInt64 ->
  missingTargets (errs (processAll NewMessage p ds)) !! s =
    if decide (count_from NewMessage s ds = 0) then None
    else Some (count_from NewMessage s ds).
Proof.
  intros Hs Hm Hmax. pose proof (count_from_nonneg NewMessage s ds) as Hn.
  rewrite processAll_missing by done. rewrite Hm. case_decide; [done|].
  simpl. f_equal. apply int64_small. unfold in_int64, minInt64, maxInt64 in *. lia.
Qed.

End Counting.

Lemma total_counts_accepted_witness :
  exists r',
    res (processAll testCodec (testProbe false) testPackets) !! "a" = Some r' /\
    target r' = "a" /\ total r' = 2.
Proof.
  destruct (total_counts_accepted testCodec (testProbe false) testPackets "a"
              (zeroResult "a") eq_refl) as (r' & H1 & H2 & H3).
  - simpl. lia.
  - by vm_compute.
  - exists r'. split; [exact H1|]. split; [exact H2 | exact H3].
Defined.

Lemma window_total_witness :
  exists r',
    r' ∈ (outputResults
            (processAll testCodec
               (initProbeRunResults (Init "udp_listener" false 1)
                  [mkEndpoint "a"; mkEndpoint "b"]).1 testPackets)
            5 [mkEndpoint "a"]).1.2 /\
    target r' = "a" /\ total r' = 5.
Proof.
  destruct (window_total testCodec (Init "udp_listener" false 1)
              [mkEndpoint "a"; mkEndpoint "b"] [mkEndpoint "a"] testPackets 5 "a")
    as (r' & H1 & H2 & H3).
  - apply elem_of_cons. by left.
  - unfold maxInt64. lia.
  - by vm_compute.
  - exists r'. split; [exact H1|]. split; [exact H2 | exact H3].
Defined.

Lemma missingTargets_counts_witness :
  missingTargets (errs (processAll testCodec (testProbe false) testPackets)) !! "z" = Some 2.
Proof.
  apply (missingTargets_counts testCodec (testProbe false) testPackets "z" eq_refl eq_refl).
  by vm_compute.
Defined.

(** ** The two loops side by side *)

Lemma processMessage_echoMode NewMessage p data rxTS srcAddr :
  echoMode (processMessage NewMessage p data rxTS srcAddr) = echoMode p.
Proof.
  unfold processMessage. repeat case_match; done.
Qed.

Lemma echoLoop_run_prefix ws : forall s,
  (length ws <= length (echoChan s))%nat ->
  Forall (fun w => w <> WriteEOF) ws ->
  exists s', echoLoop_run s ws = Continue s' /\
    wire s' = wire s ++ take (length ws) (queued s) /\
    echoChan s' = drop (length ws) (echoChan s) /\ probe s' = probe s.
Proof.
  induction ws as [|w ws IH]; intros s Hlen Hok.
  - exists s. simpl. by rewrite app_nil_r.
  - destruct (echoChan s) as [|msg rest] eqn:E; [simpl in Hlen; lia|].
    apply Forall_cons in Hok as [Hw Hok]. simpl in Hlen.
    simpl echoLoop_run. unfold echoLoop_iter. rewrite E. unfold queued. rewrite E.
    destruct w as [n| |]; [| done |].
    + edestruct IH as (s' & Hrun & Hwire & Hch & Hp); [| exact Hok |].
      2:{ exists s'. split; [exact Hrun|]. rewrite Hwire, Hch, Hp. unfold queued. simpl.
          by rewrite <- app_assoc. }
      simpl. lia.
    + edestruct IH as (s' & Hrun & Hwire & Hch & Hp); [| exact Hok |].
      2:{ exists s'. split; [exact Hrun|]. rewrite Hwire, Hch, Hp. unfold queued. simpl.
          by rewrite <- app_assoc. }
      simpl. lia.
Qed.

Lemma echoLoop_run_EOF s ws1 ws2 :
  (length ws1 < length (echoChan s))%nat ->
  Forall (fun w => w <> WriteEOF) ws1 ->
  exists s',
    echoLoop_run s (ws1 ++ WriteEOF :: ws2) = Return s' /\
    wire s' = wire s ++ take (S (length ws1)) (queued s) /\
    echoChan s' = drop (S (length ws1)) (echoChan s) /\
    probe s' = probe s.
Proof.
  intros Hlen Hok.
  destruct (echoLoop_run_prefix ws1 s ltac:(lia) Hok) as (s1 & Hrun & Hwire & Hch & Hp).
  assert (Happ : forall ws s0 s1', echoLoop_run s0 ws = Continue s1' ->
            forall ws', echoLoop_run s0 (ws ++ ws') = echoLoop_run s1' ws').
  { induction ws as [|w ws IH]; intros s0 s1' H ws'.
    - simpl in H. by injection H as ->.
    - rewrite <- app_comm_cons. cbn [echoLoop_run] in *.
      destruct (echoLoop_iter s0 (EchoReceive w)); try done. by apply IH. }
  rewrite (Happ _ _ _ Hrun). simpl. unfold echoLoop_iter.
  destruct (echoChan s1) as [|msg rest] eqn:E1.
  - exfalso. apply (f_equal length) in Hch.
    rewrite length_drop in Hch. simpl in Hch. lia.
  - eexists. split; [reflexivity|]. simpl. rewrite Hwire, Hp.
    split; [|split; [|done]].
    + rewrite <- app_assoc. f_equal. unfold queued.
      rewrite (take_S_r _ _ (addr msg, buf msg)); [done|].
      rewrite list_lookup_fmap. rewrite <- (Nat.add_0_r (length ws1)).
      rewrite <- lookup_drop, <- Hch. done.
    + rewrite <- (Nat.add_1_r (length ws1)), <- drop_drop, <- Hch. done.
Qed.

(** When the echo loop returns: on cancellation, with nothing changed, and
    on a write whose error is io.EOF, and on nothing else.  Any other write
    error, and any short write, leaves the loop running: as long as no write
    answers io.EOF the queued messages are written out in order.  The write
    that answers io.EOF is the last one made, the messages behind it stay
    unwritten in the channel.  In all of this the probe's accumulators, flow
    states and error maps are not touched. *)
Theorem echoLoop_returns_on_EOF_or_cancel s :
  echoLoop_iter s EchoCtxDone = Return s /\
  (forall ev s', echoLoop_iter s ev = Return s' ->
     (ev = EchoCtxDone /\ s' = s) \/
     (ev = EchoReceive WriteEOF /\ exists msg rest,
        echoChan s = msg :: rest /\ echoChan s' = rest /\
        wire s' = wire s ++ [(addr msg, buf msg)] /\
        probe s' = probe s /\ logs s' = logs s)) /\
  (forall ws,
     (length ws <= length (echoChan s))%nat ->
     Forall (fun w => w <> WriteEOF) ws ->
     exists s',
       echoLoop_run s ws = Continue s' /\
       wire s' = wire s ++ take (length ws) (queued s) /\
       echoChan s' = drop (length ws) (echoChan s) /\
       probe s' = probe s) /\
  (forall ws1 ws2,
     (length ws1 < length (echoChan s))%nat ->
     Forall (fun w => w <> WriteEOF) ws1 ->
     exists s',
       echoLoop_run s (ws1 ++ WriteEOF :: ws2) = Return s' /\
       wire s' = wire s ++ take (S (length ws1)) (queued s) /\
       echoChan s' = drop (S (length ws1)) (echoChan s) /\
       probe s' = probe s).
Proof.
  split; [done|]. split; [|split].
  - intros ev s' H. unfold echoLoop_iter in H. destruct ev as [|w].
    + left. by injection H as <-.
    + right. destruct (echoChan s) as [|msg rest] eqn:E; [done|].
      destruct w as [n| |]; try done. injection H as <-.
      split; [done|]. by exists msg, rest.
  - intros ws. apply echoLoop_run_prefix.
  - intros ws1 ws2. apply echoLoop_run_EOF.
Qed.

Lemma sys_step_echo NewMessage s e :
  exists ds,
    wire (sys_step NewMessage s e) ++ queued (sys_step NewMessage s e) =
      wire s ++ queued s ++ ds /\
    ds `sublist_of` datagrams_of [e].
Proof.
  unfold sys_step, queued. destruct e as [[ | | data srcAddr rxTS] | [ | w]]; simpl.
  - exists []. by rewrite app_nil_r.
  - exists []. by rewrite app_nil_r.
  - destruct (echoMode (probe s)).
    + unfold chan_send. case_bool_decide; simpl.
      * exists [(srcAddr, data)]. by rewrite fmap_app.
      * exists []. rewrite app_nil_r. split; [done | apply sublist_nil_l].
    + exists []. rewrite app_nil_r. split; [done | apply sublist_nil_l].
  - exists []. by rewrite app_nil_r.
  - exists []. rewrite app_nil_r. split; [|apply sublist_nil_l].
    destruct (echoChan s) as [|msg rest] eqn:E; simpl; rewrite ?E; [done|].
    destruct w; simpl; by rewrite <- app_assoc.
Qed.

(** However the receive loop and the echo loop interleave: what has been
    written back so far, followed by what waits in the channel, is what was
    written and waiting before, followed by datagrams of this run, each at
    most once and in the order they were read.  Nothing is echoed twice,
    nothing is echoed out of order, and nothing is echoed that was not
    received. *)
Theorem echo_once_in_order NewMessage es : forall s,
  exists ds,
    wire (sys_run NewMessage s es) ++ queued (sys_run NewMessage s es) =
      wire s ++ queued s ++ ds /\
    ds `sublist_of` datagrams_of es.
Proof.
  unfold sys_run. induction es as [|e es IH]; intros s.
  - exists []. simpl. by rewrite app_nil_r.
  - simpl foldl. destruct (IH (sys_step NewMessage s e)) as (ds & Heq & Hsub).
    destruct (sys_step_echo NewMessage s e) as (d1 & Heq1 & Hsub1).
    exists (d1 ++ ds). split.
    + rewrite Heq, (app_assoc (wire _)), Heq1. by rewrite <- !app_assoc.
    + change (datagrams_of (e :: es)) with (datagrams_of ([e] ++ es)).
      unfold datagrams_of in *. rewrite omap_app. by apply sublist_app.
Qed.

Lemma sys_step_bufLen NewMessage s e :
  Forall (fun m => bufLen m = 0) (echoChan s) ->
  (forall n, e = EchoStep (EchoReceive (WriteOK n)) -> 0 <= n) ->
  Forall (fun m => bufLen m = 0) (echoChan (sys_step NewMessage s e)) /\
  List.filter is_ReplyTruncated (logs (sys_step NewMessage s e)) =
    List.filter is_ReplyTruncated (logs s).
Proof.
  intros Hall Hn. unfold sys_step.
  destruct e as [[ | | data srcAddr rxTS] | [ | w]]; simpl.
  - done.
  - split; [done|]. rewrite List.filter_app. simpl. by rewrite app_nil_r.
  - destruct (echoMode (probe s)); [|done].
    unfold chan_send. case_bool_decide; simpl; [|done].
    split; [|done]. apply Forall_app. split; [done|]. by apply Forall_singleton.
  - done.
  - destruct (echoChan s) as [|msg rest] eqn:E; simpl; rewrite ?E; [done|].
    apply Forall_cons in Hall as [H0 Hrest].
    destruct w as [n| |]; simpl.
    + split; [done|]. rewrite H0. specialize (Hn n eq_refl).
      destruct (n <? 0) eqn:Hlt; [apply Z.ltb_lt in Hlt; lia | done].
    + done.
    + split; [done|]. rewrite List.filter_app. simpl. by rewrite app_nil_r.
Qed.

Lemma sys_step_bounded NewMessage s e :
  (length (echoChan s) <= maxTargets)%nat ->
  (length (echoChan (sys_step NewMessage s e)) <= maxTargets)%nat.
Proof.
  intros Hlen. unfold sys_step.
  destruct e as [[ | | data srcAddr rxTS] | [ | w]]; simpl; try done.
  - destruct (echoMode (probe s)); [|done].
    unfold chan_send. case_bool_decide; simpl; [|done].
    rewrite length_app. simpl. lia.
  - destruct (echoChan s) as [|msg rest] eqn:E; simpl; rewrite ?E; [done|].
    simpl in Hlen. destruct w; simpl; lia.
Qed.

(** The "Reply truncated" warning of the echo loop cannot fire for the
    messages the receive loop builds: these leave bufLen at zero, and a
    write never reports a negative number of bytes.  Whatever the two loops
    do, however short the writes, no such warning is added to the log. *)
Theorem echo_never_warns_truncated NewMessage es : forall s,
  Forall (fun m => bufLen m = 0) (echoChan s) ->
  nonneg_writes es ->
  List.filter is_ReplyTruncated (logs (sys_run NewMessage s es)) =
    List.filter is_ReplyTruncated (logs s).
Proof.
  unfold sys_run, nonneg_writes. induction es as [|e es IH]; intros s Hall Hn; [done|].
  simpl foldl.
  destruct (sys_step_bufLen NewMessage s e Hall) as [Hall' Hlogs].
  { intros n ->. apply Hn. apply elem_of_cons. by left. }
  rewrite IH; [done | done |].
  intros n Hin. apply Hn. apply elem_of_cons. by right.
Qed.

(** The echo channel never holds more than maxTargets messages, whatever the
    two loops do. *)
Theorem echo_channel_bounded NewMessage es : forall s,
  (length (echoChan s) <= maxTargets)%nat ->
  (length (echoChan (sys_run NewMessage s es)) <= maxTargets)%nat.
Proof.
  unfold sys_run. induction es as [|e es IH]; intros s Hlen; [done|].
  simpl foldl. apply IH. by apply sys_step_bounded.
Qed.

(** Outside echo mode the receive loop never waits on the echo channel and
    never puts anything on it: every iteration completes, the loop goes round
    until it is cancelled, and the channel and the writes stay as they
    were. *)
Theorem recvLoop_without_echo NewMessage evs : forall s,
  echoMode (probe s) = false ->
  recvLoop_run NewMessage s evs <> Blocked /\
  (RecvCtxDone ∉ evs -> exists s', recvLoop_run NewMessage s evs = Continue s') /\
  (RecvCtxDone ∈ evs -> exists s', recvLoop_run NewMessage s evs = Return s') /\
  (forall s', recvLoop_run NewMessage s evs = Continue s' \/
              recvLoop_run NewMessage s evs = Return s' ->
     echoChan s' = echoChan s /\ wire s' = wire s /\ echoMode (probe s') = false).
Proof.
  induction evs as [|ev evs IH]; intros s Hecho.
  - simpl. split; [done|]. split; [by eexists|]. split.
    + intros H. by apply elem_of_nil in H.
    + intros s' [[= <-]|?]; done.
  - cbn [recvLoop_run]. destruct ev as [ | | data srcAddr rxTS]; cbn [recvLoop_iter].
    + split; [done|]. split; [intros H; exfalso; apply H, elem_of_cons; by left|].
      split; [by eexists|]. intros s' [?|[= <-]]; done.
    + destruct (IH {| probe := probe s; echoChan := echoChan s; wire := wire s;
                      logs := logs s ++ [ReceiveErrorDebug] |} Hecho)
        as (H1 & H2 & H3 & H4).
      split; [done|]. split; [|split; [|done]].
      * intros Hn. apply H2. intros Hin. apply Hn, elem_of_cons. by right.
      * intros [?|Hin]%elem_of_cons; [done | by apply H3].
    + rewrite Hecho.
      destruct (IH {| probe := processMessage NewMessage (probe s) data rxTS srcAddr;
                      echoChan := echoChan s; wire := wire s; logs := logs s |})
        as (H1 & H2 & H3 & H4).
      { simpl. by rewrite processMessage_echoMode. }
      split; [done|]. split; [|split; [|done]].
      * intros Hn. apply H2. intros Hin. apply Hn, elem_of_cons. by right.
      * intros [?|Hin]%elem_of_cons; [done | by apply H3].
Qed.

Lemma echoLoop_returns_on_EOF_or_cancel_witness :
  (exists s',
     echoLoop_run (testState true 3) [WriteOK 2; WriteFailed; WriteEOF; WriteOK 2] = Return s' /\
     wire s' = [(testAddr, dgram_a3); (testAddr, dgram_a3); (testAddr, dgram_a3)] /\
     echoChan s' = [] /\ probe s' = testProbeSeen true) /\
  (exists s',
     echoLoop_run (testState true 3) [WriteFailed; WriteFailed] = Continue s' /\
     wire s' = [(testAddr, dgram_a3); (testAddr, dgram_a3)] /\
     length (echoChan s') = 1%nat).
Proof.
  destruct (echoLoop_returns_on_EOF_or_cancel (testState true 3)) as (_ & _ & Hgo & Hstop).
  split.
  - destruct (Hstop [WriteOK 2; WriteFailed] [WriteOK 2]) as (s' & H1 & H2 & H3 & H4).
    + simpl. lia.
    + repeat constructor; discriminate.
    + exists s'. split; [exact H1|]. split; [exact H2|]. split; [exact H3 | exact H4].
  - destruct (Hgo [WriteFailed; WriteFailed]) as (s' & H1 & H2 & H3 & _).
    + simpl. lia.
    + repeat constructor; discriminate.
    + exists s'. split; [exact H1|]. split; [exact H2|]. by rewrite H3.
Defined.

Lemma echo_never_warns_truncated_witness :
  List.filter is_ReplyTruncated (logs (sys_run testCodec (testState true 0) testSysEvents)) = [].
Proof.
  apply (echo_never_warns_truncated testCodec testSysEvents (testState true 0)).
  - constructor.
  - intros n Hin. unfold testSysEvents in Hin.
    repeat (apply elem_of_cons in Hin as [Heq|Hin];
            [try discriminate Heq; injection Heq as ->; lia|]).
    by apply elem_of_nil in Hin.
Defined.

Lemma echo_channel_bounded_witness :
  (length (echoChan (sys_run testCodec (testState true 1024) testSysEvents)) <= maxTargets)%nat.
Proof.
  apply (echo_channel_bounded testCodec testSysEvents (testState true 1024)).
  unfold testState. cbn [echoChan]. rewrite length_replicate. unfold maxTargets. lia.
Defined.

Lemma recvLoop_without_echo_witness :
  exists s',
    recvLoop_run testCodec (testState false 0)
      [Datagram dgram_a6 testAddr 250; ReadError; Datagram dgram_bad testAddr 260] =
      Continue s' /\
    echoChan s' = [] /\ wire s' = [].
Proof.
  destruct (recvLoop_without_echo testCodec
              [Datagram dgram_a6 testAddr 250; ReadError; Datagram dgram_bad testAddr 260]
              (testState false 0) eq_refl) as (_ & H2 & _ & H4).
  destruct H2 as [s' Hs'].
  - intros Hin. repeat (apply elem_of_cons in Hin as [Heq|Hin]; [discriminate Heq|]).
    by apply elem_of_nil in Hin.
  - exists s'. split; [exact Hs'|].
    destruct (H4 s' (or_introl Hs')) as (Hc & Hw & _). split; [exact Hc | exact Hw].
Defined.

(** ** The output ticker *)

(** The expected count of a tick is the number of whole probe intervals
    nearest to the elapsed time, times the packets per probe: for an
    interval of at least 2ns and an elapsed time within half an interval of
    [k] intervals (from [interval / 2 - 1] below to [interval - interval / 2]
    above), it is [k * packetsPerProbe], as long as nothing overflows. *)
Theorem expectedCount_rounds interval ppp k d :
  2 <= interval -> 0 <= k ->
  1 - interval / 2 <= d <= interval - interval / 2 ->
  0 <= k * interval + d ->
  k * interval + d + interval <= maxInt64 ->
  - 2 ^ 31 <= ppp < 2 ^ 31 ->
  in_int64 (k * ppp) ->
  expectedCount (k * interval + d) interval ppp = k * ppp.
Proof.
  intros HI Hk Hd H0 Hmax Hppp Hkp. unfold expectedCount.
  assert (Hhalf : Z.quot interval 2 = interval / 2) by (apply Z.quot_div_nonneg; lia).
  assert (Hh : 0 <= interval / 2 <= interval).
  { split; [apply Z.div_pos; lia|]. apply Z.div_le_upper_bound; lia. }
  unfold in_int64, minInt64, maxInt64 in *.
  rewrite Hhalf.
  rewrite (int64_small (interval / 2 - 1))
    by (unfold in_int64, minInt64, maxInt64; lia).
  rewrite (int64_small (k * interval + d + (interval / 2 - 1)))
    by (unfold in_int64, minInt64, maxInt64; lia).
  assert (Hq : Z.quot (k * interval + d + (interval / 2 - 1)) interval = k).
  { rewrite Z.quot_div_nonneg by lia. symmetry.
    apply (Z.div_unique _ _ k (d + (interval / 2 - 1))); lia. }
  rewrite Hq.
  assert (Hkmax : k <= 2 ^ 63 - 1) by nia.
  rewrite (int64_small k) by (unfold in_int64, minInt64, maxInt64; lia).
  rewrite (int64_small ppp) by (unfold in_int64, minInt64, maxInt64; lia).
  apply int64_small. unfold in_int64, minInt64, maxInt64. lia.
Qed.

Lemma expectedCount_rounds_witness :
  expectedCount 10499999999 1000000000 2 = 20 /\
  expectedCount 9500000001 1000000000 2 = 20.
Proof.
  split.
  - apply (expectedCount_rounds 1000000000 2 10 499999999); unfold in_int64, minInt64, maxInt64;
      try lia; split; try lia; by vm_compute.
  - apply (expectedCount_rounds 1000000000 2 10 (-499999999));
      unfold in_int64, minInt64, maxInt64; try lia; split; try lia; by vm_compute.
Defined.

Lemma uint64_small x : 0 <= x < 2 ^ 64 -> uint64 x = x.
Proof. intros H. unfold uint64. by apply Z.mod_small. Qed.

Lemma lessThanHalf_small r m :
  0 <= r -> r <= m -> m < 2 ^ 62 -> lessThanHalf r m = (2 * r <? m).
Proof.
  intros Hr Hrm Hm. unfold lessThanHalf.
  rewrite (uint64_small r), (uint64_small m), (uint64_small (r + r)) by lia.
  f_equal. lia.
Qed.

Lemma Duration_Round_nearest d m :
  0 < m -> m <= d -> d < 2 ^ 62 ->
  exists q, 0 < q /\ Duration_Round d m = q * m /\
            2 * Z.abs (Duration_Round d m - d) <= m.
Proof.
  intros Hm Hmd Hd. unfold Duration_Round.
  destruct (m <=? 0) eqn:E0; [apply Z.leb_le in E0; lia|].
  destruct (d <? 0) eqn:E1; [apply Z.ltb_lt in E1; lia|].
  rewrite Z.rem_mod_nonneg by lia.
  pose proof (Z.mod_pos_bound d m Hm) as Hr.
  pose proof (Z.div_mod d m ltac:(lia)) as Hdm.
  assert (Hq : 1 <= d / m) by (apply Z.div_le_lower_bound; lia).
  rewrite lessThanHalf_small by lia.
  destruct (2 * (d mod m) <? m) eqn:E2.
  - apply Z.ltb_lt in E2.
    rewrite int64_small by (unfold in_int64, minInt64, maxInt64; lia).
    exists (d / m). split; [lia|]. split; [lia|]. lia.
  - apply Z.ltb_ge in E2.
    rewrite (int64_small (d + m)) by (unfold in_int64, minInt64, maxInt64; lia).
    rewrite int64_small by (unfold in_int64, minInt64, maxInt64; lia).
    destruct (d <? d + m - d mod m) eqn:E3; [|apply Z.ltb_ge in E3; lia].
    exists (d / m + 1). split; [lia|]. split; [lia|]. lia.
Qed.

(** The period of the output ticker, for a positive probe interval and an
    export interval below 2^62 ns: it is positive (so the ticker can be
    made) and a whole multiple of the probe interval; it is the probe
    interval itself when at most one packet is due per export interval, and
    otherwise within half a probe interval of half the export interval. *)
Theorem tickPeriod_multiple statsExportInterval interval :
  0 < interval -> 0 <= statsExportInterval < 2 ^ 62 ->
  let tick := tickPeriod statsExportInterval interval in
  0 < tick /\
  (exists q, 0 < q /\ tick = q * interval) /\
  (statsExportInterval < 2 * interval -> tick = interval) /\
  (2 * interval <= statsExportInterval ->
   2 * Z.abs (tick - statsExportInterval / 2) <= interval).
Proof.
  intros HI HS tick. subst tick. unfold tickPeriod.
  rewrite !Z.quot_div_nonneg by lia.
  assert (Hq0 : 0 <= statsExportInterval / interval) by (apply Z.div_pos; lia).
  assert (Hqle : statsExportInterval / interval <= statsExportInterval).
  { apply Z.div_le_upper_bound; nia. }
  assert (Hh0 : 0 <= statsExportInterval / 2) by (apply Z.div_pos; lia).
  assert (Hhle : statsExportInterval / 2 <= statsExportInterval).
  { apply Z.div_le_upper_bound; lia. }
  rewrite !int64_small by (unfold in_int64, minInt64, maxInt64; lia).
  destruct (1 <? statsExportInterval / interval) eqn:E.
  - apply Z.ltb_lt in E.
    assert (H2 : 2 * interval <= statsExportInterval).
    { destruct (Z_lt_le_dec statsExportInterval (2 * interval)) as [Hlt|]; [|done].
      assert (statsExportInterval / interval < 2); [|lia].
      apply Z.div_lt_upper_bound; lia. }
    assert (Hm : interval <= statsExportInterval / 2)
      by (apply Z.div_le_lower_bound; lia).
    destruct (Duration_Round_nearest (statsExportInterval / 2) interval HI Hm ltac:(lia))
      as (q & Hq & Heq & Hnear).
    split; [rewrite Heq; nia|]. split; [by exists q|]. split; [lia | done].
  - apply Z.ltb_ge in E.
    assert (H2 : statsExportInterval < 2 * interval).
    { destruct (Z_lt_le_dec statsExportInterval (2 * interval)) as [|Hge]; [done|].
      assert (2 <= statsExportInterval / interval); [|lia].
      apply Z.div_le_lower_bound; lia. }
    split; [done|]. split; [exists 1; lia|]. split; [done | lia].
Qed.

(** A 10s export interval and a 3s probe interval: ticks every 6s. *)
Lemma tickPeriod_multiple_witness :
  tickPeriod 10000000000 3000000000 = 6000000000 /\
  0 < tickPeriod 10000000000 3000000000 /\
  tickPeriod 2000000000 1500000000 = 1500000000.
Proof.
  destruct (tickPeriod_multiple 10000000000 3000000000 ltac:(lia) ltac:(lia))
    as (Hpos & _ & _ & _).
  destruct (tickPeriod_multiple 2000000000 1500000000 ltac:(lia) ltac:(lia))
    as (_ & _ & Heq & _).
  split; [by vm_compute|]. split; [exact Hpos|]. apply Heq. lia.
Defined.

(** ** What the stats keeper adds up *)

Lemma sumZ_snoc l x : sumZ (l ++ [x]) = sumZ l + x.
Proof. unfold sumZ. induction l as [|y l IH]; simpl; lia. Qed.

Lemma counters_Metric key f r now :
  (key, f) ∈ counters -> EventMetrics.Metric (Metrics r now) key = Some (f r).
Proof.
  unfold counters. intros Hin.
  repeat (apply elem_of_cons in Hin as [[= -> ->]|Hin]; [reflexivity|]).
  by apply elem_of_nil in Hin.
Qed.

Lemma statsKeeper_snoc ptype nm evs ev :
  statsKeeper ptype nm (evs ++ [ev]) =
    statsKeeper_step ptype nm (statsKeeper ptype nm evs) ev.
Proof. unfold statsKeeper. by rewrite foldl_app. Qed.

Lemma keeper_sums_inv ptype nm t key f :
  (key, f) ∈ counters ->
  forall evs,
    (forall r, r ∈ snapshots_of t evs -> in_int64 (f r)) ->
    match snapshots_of t evs with
    | [] => targetMetrics (statsKeeper ptype nm evs) !! t = None
    | _ => exists cur,
        targetMetrics (statsKeeper ptype nm evs) !! t = Some cur /\
        EventMetrics.Metric cur key = Some (int64 (sumZ (f <$> snapshots_of t evs)))
    end.
Proof.
  intros Hkey. induction evs as [|ev evs IH] using rev_ind; intros Hin; [done|].
  rewrite statsKeeper_snoc. unfold snapshots_of in *. rewrite omap_app in *.
  fold (snapshots_of t evs) in *.
  assert (IH' := IH (fun r Hr => Hin r (proj2 (elem_of_app _ _ r) (or_introl Hr)))).
  clear IH. destruct ev as [r now|ts tgts]; simpl.
  - destruct (decide (target r = t)) as [Heq|Hne]; simpl.
    + assert (Hfr : in_int64 (f r)).
      { apply Hin. apply elem_of_app. right. simpl. rewrite decide_True by done.
        apply elem_of_cons. by left. }
      destruct (snapshots_of t evs) as [|r0 rs] eqn:Es.
      * simpl. unfold statsKeeper_result. rewrite Heq, IH'. simpl.
        rewrite lookup_insert_eq. eexists. split; [done|].
        rewrite (counters_Metric _ _ _ _ Hkey). unfold sumZ. simpl.
        by rewrite Z.add_0_r, int64_small.
      * destruct IH' as (cur & Hcur & Hm).
        rewrite <- Heq in Hcur.
        destruct (statsKeeper_result_adds _ r now cur key _ (f r) Hcur
                    (counters_Metric _ _ _ _ Hkey) Hm) as (cur' & Hcur' & Hm').
        rewrite <- Heq. cbn [app]. exists cur'. split; [exact Hcur'|]. rewrite Hm'.
        unfold Int.Add. rewrite int64_add_idemp_l. do 2 f_equal.
        change (r0 :: rs ++ [r]) with ((r0 :: rs) ++ [r]).
        by rewrite fmap_app, <- sumZ_snoc.
    + rewrite app_nil_r.
      assert (Hsame : targetMetrics (statsKeeper_result (statsKeeper ptype nm evs) r now) !! t
                      = targetMetrics (statsKeeper ptype nm evs) !! t).
      { unfold statsKeeper_result.
        destruct (targetMetrics (statsKeeper ptype nm evs) !! target r); simpl;
          by rewrite lookup_insert_ne. }
      rewrite Hsame. exact IH'.
  - rewrite app_nil_r.
    destruct (statsKeeper_export_spec ptype nm ts tgts (statsKeeper ptype nm evs))
      as [Hkeep _]. specialize (Hkeep t).
    destruct (snapshots_of t evs) as [|r0 rs].
    + rewrite IH' in Hkeep.
      by destruct (targetMetrics (statsKeeper_export _ _ _ _ _) !! t).
    + destruct IH' as (cur & Hcur & Hm). rewrite Hcur in Hkeep.
      destruct (targetMetrics (statsKeeper_export _ _ _ _ _) !! t) as [cur'|]; [|done].
      exists cur'. split; [done|]. injection Hkeep as Hk.
      unfold EventMetrics.Metric in *. by rewrite Hk.
Qed.

(** Each counter the stats keeper holds for a target is the sum (in int64)
    of that counter over all the snapshots received for the target since the
    keeper started, whatever came in between: snapshots of other targets
    leave it alone, and so do export ticks, which reset nothing.  A target
    not heard of has no entry. *)
Theorem keeper_sums_snapshots ptype nm evs t key f :
  (key, f) ∈ counters ->
  (forall r, r ∈ snapshots_of t evs -> in_int64 (f r)) ->
  keeper_counter (statsKeeper ptype nm evs) t key =
    match snapshots_of t evs with
    | [] => None
    | _ => Some (int64 (sumZ (f <$> snapshots_of t evs)))
    end.
Proof.
  intros Hkey Hin. pose proof (keeper_sums_inv ptype nm t key f Hkey evs Hin) as H.
  unfold keeper_counter. destruct (snapshots_of t evs) as [|r0 rs].
  - by rewrite H.
  - destruct H as (cur & -> & Hm). exact Hm.
Qed.

Lemma keeper_sums_snapshots_witness :
  keeper_counter (statsKeeper "udp" "listener" testKeeperEvents) "a" "total" = Some 11 /\
  keeper_counter (statsKeeper "udp" "listener" testKeeperEvents) "a" "lost" = Some 3 /\
  keeper_counter (statsKeeper "udp" "listener" testKeeperEvents) "c" "total" = None.
Proof.
  split; [|split].
  - apply (keeper_sums_snapshots "udp" "listener" testKeeperEvents "a" "total" total).
    + apply elem_of_cons. by left.
    + intros r Hr. vm_compute in Hr.
      repeat (apply elem_of_cons in Hr as [->|Hr];
              [unfold in_int64, minInt64, maxInt64; simpl; lia|]).
      by apply elem_of_nil in Hr.
  - apply (keeper_sums_snapshots "udp" "listener" testKeeperEvents "a" "lost" lost).
    + do 3 (apply elem_of_cons; right). apply elem_of_cons. by left.
    + intros r Hr. vm_compute in Hr.
      repeat (apply elem_of_cons in Hr as [->|Hr];
              [unfold in_int64, minInt64, maxInt64; simpl; lia|]).
      by apply elem_of_nil in Hr.
  - apply (keeper_sums_snapshots "udp" "listener" testKeeperEvents "c" "total" total).
    + apply elem_of_cons. by left.
    + intros r Hr. vm_compute in Hr. by apply elem_of_nil in Hr.
Defined.

(** ** The error maps and the results channel *)

Section ErrorMaps.

Variable NewMessage : list Byte.byte -> Message + string.

Lemma processAll_snoc p ds d :
  processAll NewMessage p (ds ++ [d]) =
    processMessage NewMessage (processAll NewMessage p ds) (pkData d) (pkRxTS d) (pkAddr d).
Proof. unfold processAll. by rewrite foldl_app. Qed.

(** The invalid-message map keeps one entry per sender address, the error of
    the latest datagram from that address that failed to decode: earlier
    errors of the same sender are overwritten, other senders' entries and
    datagrams that decode do not disturb it. *)
Theorem invalidMsgErrs_latest p ds key :
  invalidMsgErrs (errs (processAll NewMessage p ds)) !! key =
    match last (errors_of NewMessage key ds) with
    | Some err => Some err
    | None => invalidMsgErrs (errs p) !! key
    end.
Proof.
  induction ds as [|d ds IH] using rev_ind; [done|].
  rewrite processAll_snoc. unfold errors_of in *. rewrite omap_app. simpl.
  unfold processMessage.
  destruct (NewMessage (pkData d)) as [msg|err].
  - rewrite app_nil_r.
    destruct (res (processAll NewMessage p ds) !! Src msg); [|exact IH].
    by destruct (ProcessOneWay msg _ _).
  - simpl. destruct (decide (UDPAddr_String (pkAddr d) = key)) as [Heq|Hne].
    + by rewrite Heq, lookup_insert_eq, last_snoc.
    + by rewrite lookup_insert_ne, app_nil_r.
Qed.

(** One tick sends one snapshot per accumulator, so never more snapshots
    than the target list in force has targets: whenever that list is no
    longer than the results channel Start made (at least ten slots, and one
    per target known at the start), the snapshots of a tick fit into the
    empty channel. *)
Theorem snapshots_fit_results_channel p ts evs E ts' startTargets :
  let p' := (probe_run NewMessage (initProbeRunResults p ts).1 evs).1 in
  (length (targets p') <= resultsChLen startTargets)%nat ->
  (length (outputResults p' E ts').1.2 <= length (targets p'))%nat /\
  (length (outputResults p' E ts').1.2 <= resultsChLen startTargets)%nat /\
  (10 <= resultsChLen startTargets)%nat /\
  (length startTargets <= resultsChLen startTargets)%nat.
Proof.
  intros p' Hlen.
  assert (Hwf : res_wf p').
  { unfold p', probe_run. apply res_wf_foldl. simpl. apply (res_wf_init p ts). }
  destruct Hwf as (_ & _ & Hsize).
  assert (Hsent : length (outputResults p' E ts').1.2 = size (res p')).
  { unfold outputResults, initProbeRunResults. simpl.
    by rewrite !length_fmap, length_map_to_list. }
  rewrite Hsent. split; [done|]. split; [lia|].
  unfold resultsChLen.
  destruct (length startTargets <? 10)%nat eqn:E10.
  - apply Nat.ltb_lt in E10. lia.
  - apply Nat.ltb_ge in E10. lia.
Qed.

(** A tick that finds both error maps empty logs nothing, the tenth
    included: by itself the throttler never writes a line. *)
Theorem logErrs_quiet_without_errors n : forall p,
  invalidMsgErrs (errs p) = ∅ -> missingTargets (errs p) = ∅ ->
  0 <= throttleCt (errs p) < 10 ->
  (probe_run NewMessage p (replicate n LogErrs)).2 = [] /\
  invalidMsgErrs (errs (probe_run NewMessage p (replicate n LogErrs)).1) = ∅ /\
  missingTargets (errs (probe_run NewMessage p (replicate n LogErrs)).1) = ∅.
Proof.
  unfold probe_run.
  assert (Hgen : forall l p,
    invalidMsgErrs (errs p) = ∅ -> missingTargets (errs p) = ∅ ->
    0 <= throttleCt (errs p) < 10 ->
    (foldl (probe_step NewMessage) (p, l) (replicate n LogErrs)).2 = l /\
    invalidMsgErrs (errs (foldl (probe_step NewMessage) (p, l) (replicate n LogErrs)).1) = ∅ /\
    missingTargets (errs (foldl (probe_step NewMessage) (p, l) (replicate n LogErrs)).1) = ∅).
  { induction n as [|n IH]; intros l p Hi Hm Hc; [done|].
    simpl replicate. cbn [foldl probe_step].
    destruct (decide (throttleCt (errs p) = 9)) as [E9|E9].
    - rewrite (logErrs_flush _ E9), Hi, Hm. simpl. rewrite app_nil_r.
      apply IH; simpl; [done | done | lia].
    - rewrite logErrs_below by lia. rewrite app_nil_r. apply IH; simpl; [done | done | lia]. }
  intros p. apply Hgen.
Qed.

End ErrorMaps.

Lemma snapshots_fit_results_channel_witness :
  (length (outputResults
             (probe_run testCodec
                (initProbeRunResults (Init "udp_listener" false 1)
                   [mkEndpoint "a"; mkEndpoint "b"]).1
                [Received dgram_a3 testAddr 10; LogErrs]).1
             5 [mkEndpoint "a"]).1.2 <= 10)%nat.
Proof.
  apply (snapshots_fit_results_channel testCodec (Init "udp_listener" false 1)
           [mkEndpoint "a"; mkEndpoint "b"] [Received dgram_a3 testAddr 10; LogErrs]
           5 [mkEndpoint "a"] [mkEndpoint "a"; mkEndpoint "b"]).
  vm_compute. lia.
Defined.

Lemma logErrs_quiet_without_errors_witness :
  (probe_run testCodec (testProbe false) (replicate 25 LogErrs)).2 = [].
Proof.
  apply (logErrs_quiet_without_errors testCodec 25 (testProbe false) eq_refl eq_refl).
  simpl. lia.
Defined.
